(** * rocket-learn: opponent pool protocol and episode loop

    A shallow embedding of [rocket_learn/worker.py] (the Redis-backed
    opponent pool: publishing the latest model, promoting snapshots,
    quality-weighted sampling, atomic quality updates) and of
    [rocket_learn/game_manager/default_manager.py] (the episode loop).

    Conventions.
    - Python floats are modelled by the real numbers [R]; rounding is not
      modelled.
    - A Redis server executes one command (or one Lua script) at a time:
      [exec] is one atomic server step.  A client function is a tree of
      such steps ([prog]); everything between two steps is local to the
      client.
    - Python names are resolved in the module's global namespace and then
      in the builtins; an unbound name raises [NameError]. *)

From Stdlib Require Import Reals Lra Lia ZArith Ascii String List.
From stdpp Require Import gmap strings list pretty.

Local Open Scope string_scope.
Local Open Scope list_scope.
Local Open Scope Z_scope.

(** ** Python exceptions and results *)

Inductive exn : Type :=
| NameError (name : string)
| AttributeError (attr : string)
| TypeError
| ValueError
| KeyError (key : string)
| ZeroDivisionError
| ResponseError (msg : string)
| NotModelled (what : string).

Inductive result (A : Type) : Type :=
| Ok (a : A)
| Raised (e : exn).
Arguments Ok {A} a.
Arguments Raised {A} e.

Definition rbind {A B} (r : result A) (f : A → result B) : result B :=
  match r with
  | Ok a => f a
  | Raised e => Raised e
  end.

Fixpoint rmapM {A B} (f : A → result B) (l : list A) : result (list B) :=
  match l with
  | [] => Ok []
  | x :: xs => rbind (f x) (λ y, rbind (rmapM f xs) (λ ys, Ok (y :: ys)))
  end.

(** ** The Redis server *)

Module Redis.

(** A Redis string.  Numbers travel as their decimal text; [Num x]
    stands for the text of [x], [Bytes b] for any other byte string. *)
Inductive rstr : Type :=
| Bytes (b : string)
| Num (x : R).

Inductive rval : Type :=
| VString (s : rstr)
| VList (l : list rstr).

Abbreviation store := (gmap string rval).

(** The commands [worker.py] sends.  [EVAL_LINDEX_ADD_LSET k1 k2 a1] is
    the Lua script of [update_opponent_quality] with [KEYS = {k1, k2}]
    and [ARGV = {a1}]. *)
Inductive command : Type :=
| DEL (key : string)
| SET (key : string) (value : rstr)
| GET (key : string)
| RPUSH (key : string) (values : list rstr)
| LRANGE (key : string) (start stop : Z)
| LLEN (key : string)
| EVAL_LINDEX_ADD_LSET (k1 : string) (k2 : Z) (a1 : R).

Inductive reply : Type :=
| RInt (n : Z)
| RBulk (s : rstr)
| RNil
| RMulti (l : list rstr)
| RStatusOk
| RError (msg : string).

(** Redis list positions: a negative index counts from the tail. *)
Definition norm_index {A} (l : list A) (i : Z) : option nat :=
  let n := Z.of_nat (length l) in
  let j := if i <? 0 then n + i else i in
  if (0 <=? j) && (j <? n) then Some (Z.to_nat j) else None.

Definition lindex {A} (l : list A) (i : Z) : option A :=
  match norm_index l i with
  | Some j => l !! j
  | None => None
  end.

Definition lset {A} (l : list A) (i : Z) (x : A) : option (list A) :=
  match norm_index l i with
  | Some j => Some (<[j := x]> l)
  | None => None
  end.

Definition lrange {A} (l : list A) (start stop : Z) : list A :=
  let n := Z.of_nat (length l) in
  let a := Z.max 0 (if start <? 0 then n + start else start) in
  let b := Z.min (n - 1) (if stop <? 0 then n + stop else stop) in
  if b <? a then [] else take (Z.to_nat (b - a + 1)) (drop (Z.to_nat a) l).

(** Lua's [tonumber] on a Redis reply. *)
Definition tonumber (v : option rstr) : option R :=
  match v with
  | Some (Num x) => Some x
  | _ => None
  end.

Definition wrongtype : string :=
  "WRONGTYPE Operation against a key holding the wrong kind of value".

(** One atomic server step. *)
Definition exec (c : command) (s : store) : reply * store :=
  match c with
  | DEL k =>
      (RInt (if s !! k is Some _ then 1 else 0), delete k s)
  | SET k v =>
      (RStatusOk, <[k := VString v]> s)
  | GET k =>
      match s !! k with
      | None => (RNil, s)
      | Some (VString v) => (RBulk v, s)
      | Some (VList _) => (RError wrongtype, s)
      end
  | RPUSH k vs =>
      match vs with
      | [] => (RError "ERR wrong number of arguments for 'rpush' command", s)
      | _ =>
          match s !! k with
          | None => (RInt (Z.of_nat (length vs)), <[k := VList vs]> s)
          | Some (VList l) =>
              (RInt (Z.of_nat (length (l ++ vs))), <[k := VList (l ++ vs)]> s)
          | Some (VString _) => (RError wrongtype, s)
          end
      end
  | LRANGE k start stop =>
      match s !! k with
      | None => (RMulti [], s)
      | Some (VList l) => (RMulti (lrange l start stop), s)
      | Some (VString _) => (RError wrongtype, s)
      end
  | LLEN k =>
      match s !! k with
      | None => (RInt 0, s)
      | Some (VList l) => (RInt (Z.of_nat (length l)), s)
      | Some (VString _) => (RError wrongtype, s)
      end
  | EVAL_LINDEX_ADD_LSET k1 k2 a1 =>
      (* local q = tonumber(redis.call('LINDEX', KEYS[1], KEYS[2]))
         local delta = tonumber(ARGV[1])
         local new_q = q + delta
         return redis.call('LSET', KEYS[1], KEYS[2], new_q) *)
      match s !! k1 with
      | Some (VString _) => (RError wrongtype, s)
      | None => (RError "attempt to perform arithmetic on a nil value", s)
      | Some (VList l) =>
          match tonumber (lindex l k2) with
          | None => (RError "attempt to perform arithmetic on a nil value", s)
          | Some q =>
              let new_q := (q + a1)%R in
              match lset l k2 (Num new_q) with
              | Some l' => (RStatusOk, <[k1 := VList l']> s)
              | None => (RError "ERR index out of range", s)
              end
          end
      end
  end.

End Redis.
Import Redis.

(** ** Client programs *)

(** A client function: local computation between atomic server calls. *)
Inductive prog (A : Type) : Type :=
| Ret (a : A)
| Raise (e : exn)
| Call (c : command) (k : reply → prog A).
Arguments Ret {A} a.
Arguments Raise {A} e.
Arguments Call {A} c k.

Fixpoint bind {A B} (p : prog A) (f : A → prog B) : prog B :=
  match p with
  | Ret a => f a
  | Raise e => Raise e
  | Call c k => Call c (λ r, bind (k r) f)
  end.

#[global] Instance prog_ret : MRet prog := λ A a, Ret a.
#[global] Instance prog_bind : MBind prog := λ A B f p, bind p f.
#[global] Instance result_ret : MRet result := λ A a, Ok a.
#[global] Instance result_bind : MBind result := λ A B f r, rbind r f.

Definition lift {A} (r : result A) : prog A :=
  match r with
  | Ok a => Ret a
  | Raised e => Raise e
  end.

(** redis-py turns an error reply into a raised [ResponseError]. *)
Definition redis_call (c : command) : prog reply :=
  Call c (λ r, match r with
               | RError msg => Raise (ResponseError msg)
               | _ => Ret r
               end).

(** Sequential execution of one client against the server. *)
Fixpoint run {A} (p : prog A) (s : store) : result A * store :=
  match p with
  | Ret a => (Ok a, s)
  | Raise e => (Raised e, s)
  | Call c k => let '(r, s') := exec c s in run (k r) s'
  end.

(** The commands a client sends, in order, when run alone. *)
Fixpoint trace {A} (p : prog A) (s : store) : list command :=
  match p with
  | Ret _ | Raise _ => []
  | Call c k => let '(r, s') := exec c s in c :: trace (k r) s'
  end.

(** ** worker.py *)

Module Worker.

(** *** The module namespace *)

Inductive pyobj : Type :=
| PyStr (s : string)
| PyNamespace (attrs : gmap string string)
| PyOther.

Abbreviation globals := (gmap string pyobj).

(** The names bound at the top level of [worker.py]: its imports, its
    five string constants and its functions. *)
Definition module_globals : globals :=
  list_to_map
    [ ("os", PyOther); ("pickle", PyOther); ("time", PyOther);
      ("np", PyOther); ("Match", PyOther); ("Gym", PyOther);
      ("Redis", PyOther); ("msgpack", PyOther);
      ("BLUE_TEAM", PyOther); ("ORANGE_TEAM", PyOther);
      ("ExperienceBuffer", PyOther); ("utils", PyOther);
      ("QUALITIES", PyStr "qualities");
      ("MODEL_LATEST", PyStr "model-latest");
      ("MODEL_N", PyStr "model-{}");
      ("ROLLOUTS", PyStr "rollout");
      ("VERSION_LATEST", PyStr "model-version");
      ("update_model", PyOther); ("add_opponent", PyOther);
      ("_softmax", PyOther); ("get_opponent_index", PyOther);
      ("update_opponent_quality", PyOther); ("worker", PyOther) ].

(** The builtin functions of Python 3.  (The other builtins are the
    exception classes and the constants [True], [False], [None], ...) *)
Definition builtins : list string :=
  [ "abs"; "all"; "any"; "ascii"; "bin"; "bool"; "breakpoint";
    "bytearray"; "bytes"; "callable"; "chr"; "classmethod"; "compile";
    "complex"; "delattr"; "dict"; "dir"; "divmod"; "enumerate"; "eval";
    "exec"; "filter"; "float"; "format"; "frozenset"; "getattr";
    "globals"; "hasattr"; "hash"; "help"; "hex"; "id"; "input"; "int";
    "isinstance"; "issubclass"; "iter"; "len"; "list"; "locals"; "map";
    "max"; "memoryview"; "min"; "next"; "object"; "oct"; "open"; "ord";
    "pow"; "print"; "property"; "range"; "repr"; "reversed"; "round";
    "set"; "setattr"; "slice"; "sorted"; "staticmethod"; "str"; "sum";
    "super"; "tuple"; "type"; "vars"; "zip"; "__import__" ].

(** [LOAD_GLOBAL name]. *)
Definition load_global (g : globals) (name : string) : result pyobj :=
  match g !! name with
  | Some o => Ok o
  | None =>
      if bool_decide (name ∈ builtins) then Ok PyOther
      else Raised (NameError name)
  end.

(** [obj.attr]. *)
Definition load_attr (o : pyobj) (attr : string) : result pyobj :=
  match o with
  | PyNamespace attrs =>
      match attrs !! attr with
      | Some s => Ok (PyStr s)
      | None => Raised (AttributeError attr)
      end
  | _ => Raised (AttributeError attr)
  end.

(** A value used as a Redis key name. *)
Definition as_key (o : pyobj) : result string :=
  match o with
  | PyStr s => Ok s
  | _ => Raised (NotModelled "key name that is not a string")
  end.

(** The key expression [NAME]. *)
Definition key_global (g : globals) (name : string) : prog string :=
  lift (o ← load_global g name; as_key o).

(** The key expression [Keys.ATTR]. *)
Definition key_of_Keys (g : globals) (attr : string) : prog string :=
  lift (o ← load_global g "Keys"; a ← load_attr o attr; as_key a).

(** *** Reply decoding *)

Definition as_multi (r : reply) : prog (list rstr) :=
  match r with
  | RMulti l => Ret l
  | _ => Raise (NotModelled "reply kind")
  end.

Definition as_int (r : reply) : prog Z :=
  match r with
  | RInt n => Ret n
  | _ => Raise (NotModelled "reply kind")
  end.

(** [float(v)] on a value read from Redis. *)
Definition py_float (v : rstr) : result R :=
  match v with
  | Num x => Ok x
  | Bytes _ => Raised ValueError
  end.

(** [msgpack.loads(redis.get(key))]: the payload is opaque; a missing
    key gives [None], which [loads] rejects. *)
Definition msgpack_loads (r : reply) : prog rstr :=
  match r with
  | RBulk b => Ret b
  | RNil => Raise TypeError
  | _ => Raise (NotModelled "reply kind")
  end.

(** [redis.set(name, *args)]: one positional argument is the value;
    none is a [TypeError]; further ones would be taken as the [ex],
    [px], [nx], [xx] options of redis-py, which are not modelled. *)
Definition redis_set_star (name : string) (args : list rstr) : prog reply :=
  match args with
  | [] => Raise TypeError
  | [value] => redis_call (SET name value)
  | _ => Raise (NotModelled "SET options")
  end.

(** *** update_model *)

Definition update_model (g : globals)
    (state_dict_dump : list rstr) (version : rstr) : prog unit :=
  k ← key_of_Keys g "MODEL_LATEST";
  redis_call (DEL k);;
  k ← key_of_Keys g "VERSION_LATEST";
  redis_call (DEL k);;
  k ← key_of_Keys g "MODEL_LATEST";
  redis_set_star k state_dict_dump;;
  k ← key_of_Keys g "VERSION_LATEST";
  redis_call (SET k version);;
  mret ().

(** *** add_opponent *)

(** [max(qualities)] on a non-empty list. *)
Definition py_max (x : R) (xs : list R) : R := fold_left Rmax xs x.

Definition add_opponent (g : globals) (state_dict_dump : rstr) : prog unit :=
  (* Add to list *)
  k ← key_of_Keys g "OP_MODELS";
  redis_call (RPUSH k [state_dict_dump]);;
  (* Set quality *)
  q ← key_global g "QUALITIES";
  r ← redis_call (LRANGE q 0 (-1));
  vs ← as_multi r;
  qualities ← lift (rmapM py_float vs);
  let quality :=
    match qualities with
    | x :: xs => py_max x xs
    | [] => 0%R
    end in
  q ← key_global g "QUALITIES";
  redis_call (RPUSH q [Num quality]);;
  mret ().

(** *** _softmax *)

Definition np_max (x : list R) : result R :=
  match x with
  | [] => Raised ValueError
  | a :: l => Ok (fold_left Rmax l a)
  end.

Definition np_sum (x : list R) : R := fold_right Rplus 0%R x.

Definition _softmax (x : list R) : result (list R) :=
  m ← np_max x;
  let e_x := map (λ v, exp (v - m)) x in
  mret (map (λ e, e / np_sum e_x)%R e_x).

(** *** get_opponent_index *)

(** [cdf.searchsorted(u, side='right')]: the first position whose
    entry exceeds [u]. *)
Fixpoint searchsorted_right (cdf : list R) (u : R) : nat :=
  match cdf with
  | [] => 0%nat
  | c :: cdf' => if Rlt_dec u c then 0%nat else S (searchsorted_right cdf' u)
  end.

Fixpoint cumsum (acc : R) (p : list R) : list R :=
  match p with
  | [] => []
  | x :: p' => (acc + x)%R :: cumsum (acc + x)%R p'
  end.

(** [np.random.choice(len(p), p=p)] for the uniform sample [u] it
    draws: inversion of the cumulative distribution. *)
Definition random_choice (p : list R) (u : R) : nat :=
  let cdf := cumsum 0%R p in
  let total := last cdf in
  searchsorted_right (map (λ c, c / default 1 total)%R cdf) u.

Definition get_opponent_index (g : globals) (u : R) : prog (nat * R) :=
  (* Get qualities *)
  q ← key_global g "QUALITIES";
  r ← redis_call (LRANGE q 0 (-1));
  vs ← as_multi r;
  qualities ← lift (rmapM py_float vs);
  (* Pick opponent *)
  probs ← lift (_softmax qualities);
  let index := random_choice probs u in
  match probs !! index with
  | Some pr => Ret (index, pr)
  | None => Raise (NotModelled "IndexError")
  end.

(** *** update_opponent_quality *)

(** [a / b] on floats.  (With a numpy operand a zero divisor gives an
    infinity instead of an exception; neither is a real number.) *)
Definition py_div (a b : R) : result R :=
  if Req_dec_T b 0 then Raised ZeroDivisionError else Ok (a / b)%R.

Definition update_opponent_quality (g : globals)
    (index : Z) (prob rate : R) : prog unit :=
  (* Calculate delta *)
  q ← key_global g "QUALITIES";
  r ← redis_call (LLEN q);
  n ← as_int r;
  delta ← lift (py_div rate (IZR n * prob));
  (* lua script to read and update atomically *)
  q ← key_global g "QUALITIES";
  redis_call (EVAL_LINDEX_ADD_LSET q index delta);;
  mret ().

(** *** worker: one iteration of its loop, up to the shuffle *)

(** [template.format(arg)] for a template with [{}] fields and one
    argument: the first field takes the argument, a second one is an
    [IndexError]. *)
Fixpoint format_fields (template arg : string) (used : bool) : result string :=
  match template with
  | String "{"%char (String "}"%char rest) =>
      if used then Raised (NotModelled "IndexError")
      else r ← format_fields rest arg true; mret (arg +:+ r)
  | String c rest => r ← format_fields rest arg used; mret (String c r)
  | EmptyString => Ok EmptyString
  end.

Definition py_format (template : pyobj) (index : nat) : result string :=
  match template with
  | PyStr t => format_fields t (pretty index) false
  | _ => Raised (AttributeError "format")
  end.

(** The process-local random state: the uniform samples of
    [np.random.random] and [np.random.choice], and the raw integers
    behind [np.random.shuffle], by draw number. *)
Record entropy : Type := { sample : nat → R; interval : nat → nat }.

(** An entry of [agents]: [(agent, version)] or [(agent, version, prob)]. *)
Definition seat : Type := rstr * string * option R.

(** [(current_version_prob * n_agents - 1) / (n_agents - 1)] *)
Definition adjusted_prob (current_version_prob : R) (n_agents : Z) : R :=
  ((current_version_prob * IZR n_agents - 1) / (IZR n_agents - 1))%R.

(** The body of [for i in range(n_agents - 1)], [count] times; [ns] is
    the number of uniform samples drawn so far. *)
Fixpoint seats_loop (g : globals) (E : entropy) (current_agent : rstr)
    (current_version_prob adjusted : R) (count ns : nat)
    (agents : list seat) : prog (list seat * nat) :=
  match count with
  | O => Ret (agents, ns)
  | S count' =>
      let is_current := Rlt_dec (sample E ns) adjusted in
      if is_current then
        version ← key_global g "MODEL_LATEST";
        seats_loop g E current_agent current_version_prob adjusted count'
          (S ns) (agents ++ [(current_agent, version, Some current_version_prob)])
      else
        ip ← get_opponent_index g (sample E (S ns));
        t ← lift (load_global g "MODEL_N");
        version ← lift (py_format t ip.1);
        r ← redis_call (GET version);
        selected_agent ← msgpack_loads r;
        seats_loop g E current_agent current_version_prob adjusted count'
          (S (S ns)) (agents ++ [(selected_agent, version, Some ip.2)])
  end.

Definition swap {A} (x : list A) (i j : nat) : list A :=
  match x !! i, x !! j with
  | Some a, Some b => <[i := b]> (<[j := a]> x)
  | _, _ => x
  end.

(** [np.random.shuffle]: for [i] from the last position down to 1,
    exchange [x[i]] with [x[j]], [j] drawn from [0..i]. *)
Fixpoint shuffle_down {A} (E : entropy) (i ni : nat) (x : list A) : list A :=
  match i with
  | O => x
  | S i' => shuffle_down E i' (S ni) (swap x i (interval E ni `mod` S i)%nat)
  end.

Definition shuffle {A} (E : entropy) (x : list A) : list A :=
  shuffle_down E (length x - 1) 0 x.

(** Lines 89-110: the agents of the next episode. *)
Definition worker_matchup (g : globals) (E : entropy)
    (n_agents : Z) (current_version_prob : R) : prog (list seat) :=
  k ← key_global g "MODEL_LATEST";
  r ← redis_call (GET k);
  current_agent ← msgpack_loads r;
  (* Use at least one current agent *)
  version ← key_global g "MODEL_LATEST";
  let agents := [(current_agent, version, None)] in
  agents ←
    (if 1 <? n_agents then
       (* Ensure final proportion is same *)
       let adjusted := adjusted_prob current_version_prob n_agents in
       r ← seats_loop g E current_agent current_version_prob adjusted
             (Z.to_nat (n_agents - 1)) 0 agents;
       mret r.1
     else mret agents);
  mret (shuffle E agents).

(** [current_version_prob=.8] *)
Definition current_version_prob : R := (8 / 10)%R.

(** Line 114: [redis.rpush(ROLLOUTS, *(msgpack.dumps(rollout) for rollout
    in rollouts))], for the serialised rollouts. *)
Definition push_rollouts (g : globals) (dumps : list rstr) : prog unit :=
  k ← key_global g "ROLLOUTS";
  redis_call (RPUSH k dumps);;
  mret ().

(** One pass through the body of [while True].  [utils] is not among the
    sources: [episode agents] stands for the serialised rollouts that
    [utils.generate_episode(env, agents)] yields in this pass. *)
Definition worker_iteration (g : globals) (E : entropy) (n_agents : Z)
    (current_version_prob : R) (episode : list seat → list rstr) : prog unit :=
  agents ← worker_matchup g E n_agents current_version_prob;
  push_rollouts g (episode agents).

End Worker.

(** ** Several clients against one server *)

Section Interleaving.
Context {A : Type}.

(** Client threads and the shared store. *)
Definition sys : Type := list (prog A) * store.

(** Thread [i] performs its next server call; the call is atomic. *)
Definition sys_step (i : nat) (σ : sys) : option sys :=
  match σ.1 !! i with
  | Some (Call c k) =>
      let '(r, s') := exec c σ.2 in Some (<[i := k r]> σ.1, s')
  | _ => None
  end.

(** A schedule names the thread to step, one entry per server call. *)
Fixpoint sys_run (sched : list nat) (σ : sys) : option sys :=
  match sched with
  | [] => Some σ
  | i :: sched' =>
      match sys_step i σ with
      | Some σ' => sys_run sched' σ'
      | None => None
      end
  end.

Definition finished (p : prog A) : Prop :=
  match p with
  | Call _ _ => False
  | _ => True
  end.

End Interleaving.

(** * game_manager/default_manager.py *)

Module DefaultManager.

(** Python dictionaries keep insertion order. *)
Definition dict (V : Type) : Type := list (string * V).

Fixpoint dict_get {V} (d : dict V) (k : string) : option V :=
  match d with
  | [] => None
  | (k', v) :: d' => if String.eqb k k' then Some v else dict_get d' k
  end.

(** [d[k] = v] *)
Fixpoint dict_set {V} (d : dict V) (k : string) (v : V) : dict V :=
  match d with
  | [] => [(k, v)]
  | (k', v') :: d' =>
      if String.eqb k k' then (k', v) :: d' else (k', v') :: dict_set d' k v
  end.

(** [d.update(d')] *)
Definition dict_update {V} (d d' : dict V) : dict V :=
  fold_left (λ acc kv, dict_set acc kv.1 kv.2) d' d.

(** [d[k]] *)
Definition getitem {V} (d : dict V) (k : string) : result V :=
  match dict_get d k with
  | Some v => Ok v
  | None => Raised (KeyError k)
  end.

(** [s.add(x)] on a set kept as a duplicate-free list. *)
Definition set_add (s : list string) (x : string) : list string :=
  if existsb (String.eqb x) s then s else s ++ [x].

(** The object at heap address [a] becomes [x]. *)
Definition heap_set {T} (h : nat → T) (a : nat) (x : T) : nat → T :=
  λ b, if Nat.eqb a b then x else h b.

Record options : Type := {
  boost_consumption : Z;
  gravity : Z;
  blue : nat;
  orange : nat
}.

(** [sum(k.startswith(p) for k in car_identifier)] *)
Definition count_prefix {V} (p : string) (d : dict V) : nat :=
  length (filter (λ kv, String.prefix p kv.1 = true) d).

(** *** Strings and integers, as [_get_gamemode] uses them

    Strings are taken to be ASCII, and CPython's optional limit on the
    number of digits of an integer literal is taken to be off. *)

(** [s.replace(old, new)] for a non-empty [old], scanning from the left;
    [skip] counts the characters of a match still to be dropped. *)
Fixpoint replace_go (old new s : string) (skip : nat) : string :=
  match s with
  | EmptyString => EmptyString
  | String c r =>
      match skip with
      | S k => replace_go old new r k
      | O =>
          if String.prefix old s
          then new +:+ replace_go old new r (String.length old - 1)
          else String c (replace_go old new r 0)
      end
  end.

(** With an empty [old], [new] goes before every character and at the
    end. *)
Fixpoint replace_empty (new s : string) : string :=
  match s with
  | EmptyString => new
  | String c r => new +:+ String c (replace_empty new r)
  end.

Definition py_replace (old new s : string) : string :=
  match old with
  | EmptyString => replace_empty new s
  | _ => replace_go old new s 0
  end.

(** The ASCII characters that [str.isspace] accepts. *)
Definition is_space (c : ascii) : bool :=
  let n := N_of_ascii c in
  ((9 <=? n) && (n <=? 13) || (28 <=? n) && (n <=? 32))%N.

Fixpoint lstrip (s : string) : string :=
  match s with
  | EmptyString => EmptyString
  | String c r => if is_space c then lstrip r else s
  end.

Fixpoint rstrip (s : string) : string :=
  match s with
  | EmptyString => EmptyString
  | String c r =>
      match rstrip r with
      | EmptyString => if is_space c then EmptyString else String c EmptyString
      | r' => String c r'
      end
  end.

Definition digit_value (c : ascii) : option N :=
  let n := N_of_ascii c in
  if ((48 <=? n) && (n <=? 57))%N then Some (n - 48)%N else None.

(** Digits, with single underscores between them; [after_digit] tells
    whether the previous character was a digit. *)
Fixpoint parse_digits (s : string) (acc : N) (after_digit : bool) : option N :=
  match s with
  | EmptyString => if after_digit then Some acc else None
  | String c r =>
      match digit_value c with
      | Some d => parse_digits r (10 * acc + d)%N true
      | None =>
          if Ascii.eqb c "_" && after_digit then parse_digits r acc false
          else None
      end
  end.

(** [int(s)] for a string [s]. *)
Definition py_int (s : string) : result Z :=
  let t := rstrip (lstrip s) in
  let parsed :=
    match t with
    | String "-" r => Z.opp <$> (Z.of_N <$> parse_digits r 0 false)
    | String "+" r => Z.of_N <$> parse_digits r 0 false
    | _ => Z.of_N <$> parse_digits t 0 false
    end in
  match parsed with
  | Some z => Ok z
  | None => Raised ValueError
  end.

(** *** _get_gamemode *)

(** The [for key in cars] loop, from the running sums [b] and [o]. *)
Fixpoint gamemode_sums (cars : list string) (b o : Z) : result (Z * Z) :=
  match cars with
  | [] => Ok (b, o)
  | key :: cars' =>
      if String.prefix "blue-" key then
        n ← py_int (py_replace "blue-" "" key);
        gamemode_sums cars' (b + n) o
      else
        n ← py_int (py_replace "orange-" "" key);
        gamemode_sums cars' b (o + n)
  end.

Definition _get_gamemode (cars : list string) : result string :=
  bo ← gamemode_sums cars 0 0;
  (* f"{min(b, o)}v{max(b, o)}" *)
  mret (pretty (Z.min bo.1 bo.2) +:+ "v" +:+ pretty (Z.max bo.1 bo.2)).

(** *** The manager object *)

Record manager : Type := {
  display : option string;
  gamemode_exp : dict Z;
  gamemode_weights : dict R
}.

(** [__init__], without the environment, which the loop takes
    separately: [self.gamemode_exp = {k: 0 for k in gamemode_weights.keys()}]. *)
Definition __init__ (weights : dict R) (display : option string) : manager :=
  {| display := display;
     gamemode_exp := fold_left (λ acc kw, dict_set acc kw.1 0) weights [];
     gamemode_weights := weights |}.

(** [self.gamemode_exp[mode] += steps] *)
Definition add_experience (self : manager) (mode : string) (steps : Z)
  : result manager :=
  v ← getitem (gamemode_exp self) mode;
  mret {| display := display self;
          gamemode_exp := dict_set (gamemode_exp self) mode (v + steps);
          gamemode_weights := gamemode_weights self |}.

Section Episode.
(** The environment and the agents are outside this module; they are
    taken as arbitrary state machines with the interface the loop
    uses. *)
Context {Env Obs Action GState Info AgentSt : Type}.

Record step_result : Type := {
  observations : dict Obs;
  rewards : dict R;
  terminated : dict bool;
  truncated : dict bool;
  info : Info
}.

Variable env_reset : Env → options → Env * (dict Obs * Info).
Variable env_step : Env → dict Action → Env * step_result.
Variable env_agents : Env → list string.
Variable env_state : Env → GState.
Variable agent_act : AgentSt → dict Obs → AgentSt * dict Action.
Variable agent_end : AgentSt → GState → dict bool → AgentSt.

(** A call [agent.end(state, truncs)] on the agent of [identifier]. *)
Definition end_call : Type := string * GState * dict bool.

(** Agent objects live in a heap; [identifier_agent] maps
    identifiers to heap addresses, so two identifiers may share one
    agent. *)
Record loop_state : Type := {
  env : Env;
  heap : nat → AgentSt;
  obs_now : dict Obs;
  all_states : list GState;
  total_agent_steps : Z;
  removed_cars : list string;
  end_calls : list end_call
}.

Variable car_identifier : dict string.
Variable identifier_agent : dict nat.

(** [identifier_cars.setdefault(identifier, set()).add(car)] for every
    item of [car_identifier]. *)
Definition identifier_cars : dict (list string) :=
  fold_left
    (λ acc ci, dict_set acc ci.2 (set_add (default [] (dict_get acc ci.2)) ci.1))
    car_identifier [].

(** Select actions: the first [for] of the loop body. *)
Fixpoint select_actions (groups : dict (list string))
    (h : nat → AgentSt) (observations : dict Obs)
    (all_actions : dict Action) : result ((nat → AgentSt) * dict Action) :=
  match groups with
  | [] => Ok (h, all_actions)
  | (identifier, cars) :: groups' =>
      agent ← getitem identifier_agent identifier;
      o ← rmapM (λ car, x ← getitem observations car; mret (car, x)) cars;
      let '(a, actions) := agent_act (h agent) o in
      select_actions groups' (heap_set h agent a) observations
        (dict_update all_actions actions)
  end.

(** The body of [for car in self.env.agents] for one car. *)
Definition notify_car (state : GState) (out : step_result) (car : string)
    (acc : (nat → AgentSt) * list string * list end_call)
  : result ((nat → AgentSt) * list string * list end_call) :=
  let '(h, removed, calls) := acc in
  t ← getitem (terminated out) car;
  over ← (if t : bool then Ok true else getitem (truncated out) car);
  if over : bool then
    identifier ← getitem car_identifier car;
    tr ← getitem (truncated out) car;
    (* ended = {identifier: {car: truncated[car]}} *)
    let truncs := [(car, tr)] in
    let removed' := set_add removed car in
    agent ← getitem identifier_agent identifier;
    mret (heap_set h agent (agent_end (h agent) state truncs), removed',
          calls ++ [(identifier, state, truncs)])
  else mret (h, removed, calls).

Fixpoint notify (state : GState) (out : step_result) (cars : list string)
    (acc : (nat → AgentSt) * list string * list end_call)
  : result ((nat → AgentSt) * list string * list end_call) :=
  match cars with
  | [] => Ok acc
  | car :: cars' => acc' ← notify_car state out car acc; notify state out cars' acc'
  end.

(** One pass through the body of [while True]; the boolean tells
    whether the pass ended in [break]. *)
Definition episode_iter (st : loop_state) : result (loop_state * bool) :=
  (* Select actions *)
  ha ← select_actions identifier_cars (heap st) (obs_now st) [];
  (* Step *)
  let '(e, out) := env_step (env st) ha.2 in
  let total := total_agent_steps st * Z.of_nat (length (env_agents e)) in
  let state := env_state e in
  (* Remove agents that are terminated or truncated *)
  n ← notify state out (env_agents e) (ha.1, removed_cars st, end_calls st);
  let st' := {| env := e; heap := n.1.1; obs_now := observations out;
                all_states := all_states st ++ [state];
                total_agent_steps := total;
                removed_cars := n.1.2; end_calls := n.2 |} in
  (* End if there are no agents left *)
  mret (st', match env_agents e with [] => true | _ => false end).

(** [while True]: [None] when the fuel runs out before a [break]. *)
Fixpoint episode_loop (fuel : nat) (st : loop_state) : option (result loop_state) :=
  match fuel with
  | O => None
  | S fuel' =>
      match episode_iter st with
      | Raised e => Some (Raised e)
      | Ok (st', true) => Some (Ok st')
      | Ok (st', false) => episode_loop fuel' st'
      end
  end.

Definition initial_state (e0 : Env) (h0 : nat → AgentSt)
    (boost_consumption gravity : Z) : loop_state :=
  let opts := {| boost_consumption := boost_consumption; gravity := gravity;
                 blue := count_prefix "blue" car_identifier;
                 orange := count_prefix "orange" car_identifier |} in
  let '(e, (observations, _)) := env_reset e0 opts in
  {| env := e; heap := h0; obs_now := observations;
     all_states := [env_state e]; total_agent_steps := 0;
     removed_cars := []; end_calls := [] |}.

(** [_episode]: its return value is [(all_states, total_agent_steps)]
    of the final loop state. *)
Definition _episode (fuel : nat) (e0 : Env) (h0 : nat → AgentSt)
    (boost_consumption gravity : Z) : option (result loop_state) :=
  episode_loop fuel (initial_state e0 h0 boost_consumption gravity).

(** [rollout]: the step count that [_episode] returns is replaced by
    [len(states) * len(car_identifier)]. *)
Definition rollout (fuel : nat) (self : manager) (e0 : Env) (h0 : nat → AgentSt)
  : option (result (manager * loop_state)) :=
  match _episode fuel e0 h0 1 1 with
  | None => None
  | Some (Raised e) => Some (Raised e)
  | Some (Ok st) =>
      let steps :=
        Z.of_nat (length (all_states st)) * Z.of_nat (length car_identifier) in
      Some (mode ← _get_gamemode (map fst car_identifier);
            self' ← add_experience self mode steps;
            mret (self', st))
  end.

(** [show]: as [rollout], with [steps = len(states)]. *)
Definition show (fuel : nat) (self : manager) (e0 : Env) (h0 : nat → AgentSt)
  : option (result (manager * loop_state)) :=
  match _episode fuel e0 h0 1 1 with
  | None => None
  | Some (Raised e) => Some (Raised e)
  | Some (Ok st) =>
      let steps := Z.of_nat (length (all_states st)) in
      Some (mode ← _get_gamemode (map fst car_identifier);
            self' ← add_experience self mode steps;
            mret (self', st))
  end.

End Episode.

End DefaultManager.

(** * Properties of worker.py *)

Import Worker.

(** Unfolds the monadic plumbing up to the next server call. *)
Ltac prog_simpl :=
  cbn [mbind mret prog_bind prog_ret result_bind result_ret bind rbind lift
       run trace redis_call as_multi as_int msgpack_loads fst snd].

Section NameResolution.

Lemma load_global_Keys :
  load_global module_globals "Keys" = Raised (NameError "Keys").
Proof. vm_compute. reflexivity. Qed.

Lemma key_of_Keys_unbound attr :
  key_of_Keys module_globals attr = Raise (NameError "Keys").
Proof. unfold key_of_Keys. cbn [mbind result_bind]. rewrite load_global_Keys. reflexivity. Qed.

Lemma key_global_QUALITIES :
  key_global module_globals "QUALITIES" = Ret "qualities".
Proof. vm_compute. reflexivity. Qed.

Lemma key_global_MODEL_LATEST :
  key_global module_globals "MODEL_LATEST" = Ret "model-latest".
Proof. vm_compute. reflexivity. Qed.

End NameResolution.

(** C3.  As the module is written, [update_model] and [add_opponent]
    raise [NameError] for the unbound name [Keys] before they send any
    command, whatever their arguments: each is the bare raise, so a run
    returns the exception, sends nothing and leaves the store as it was. *)
Theorem update_model_add_opponent_raise_NameError :
  ∀ (state_dict_dump : list rstr) (version blob : rstr) (s : store),
    update_model module_globals state_dict_dump version = Raise (NameError "Keys")
    ∧ add_opponent module_globals blob = Raise (NameError "Keys")
    ∧ run (update_model module_globals state_dict_dump version) s
      = (Raised (NameError "Keys"), s)
    ∧ trace (update_model module_globals state_dict_dump version) s = []
    ∧ run (add_opponent module_globals blob) s = (Raised (NameError "Keys"), s)
    ∧ trace (add_opponent module_globals blob) s = [].
Proof.
  intros dump version blob s.
  assert (Hu : update_model module_globals dump version = Raise (NameError "Keys")).
  { unfold update_model. rewrite key_of_Keys_unbound. reflexivity. }
  assert (Ha : add_opponent module_globals blob = Raise (NameError "Keys")).
  { unfold add_opponent. rewrite key_of_Keys_unbound. reflexivity. }
  rewrite Hu, Ha. repeat split.
Qed.

(** ** The pool with [Keys] bound

    What the two functions do once [Keys] names a namespace with the
    attributes they use. *)

Definition get_list (s : store) (k : string) : option (list rstr) :=
  match s !! k with
  | None => Some []
  | Some (VList l) => Some l
  | Some (VString _) => None
  end.

(** The quality given to a promoted snapshot. *)
Definition initial_quality (qualities : list R) : R :=
  match qualities with
  | x :: xs => py_max x xs
  | [] => 0%R
  end.

Lemma lrange_all {A} (l : list A) : lrange l 0 (-1) = l.
Proof.
  unfold lrange. cbn [Z.ltb Z.compare].
  destruct l as [|x l]; [reflexivity|].
  replace (Z.max 0 0) with 0 by lia.
  replace (Z.min _ _) with (Z.of_nat (length (x :: l)) - 1) by lia.
  destruct (Z.ltb_spec (Z.of_nat (length (x :: l)) - 1) 0) as [H|H].
  - cbn [length] in H. lia.
  - replace (Z.to_nat (_ - 1 - 0 + 1)) with (length (x :: l)) by lia.
    cbn [Z.to_nat drop]. apply take_ge. lia.
Qed.

Lemma rmapM_py_float_Num (qs : list R) : rmapM py_float (map Num qs) = Ok qs.
Proof. induction qs as [|q qs IH]; cbn; [|rewrite IH]; reflexivity. Qed.

Section KeysBound.
Variable ks : gmap string string.

Definition globals_with_Keys : globals :=
  <["Keys" := PyNamespace ks]> module_globals.

Lemma key_of_Keys_bound attr k :
  ks !! attr = Some k → key_of_Keys globals_with_Keys attr = Ret k.
Proof.
  intros Hk. unfold key_of_Keys, load_global, globals_with_Keys.
  cbn [mbind result_bind]. rewrite lookup_insert_eq. cbn. rewrite Hk. reflexivity.
Qed.

Lemma key_global_with_Keys name :
  name ≠ "Keys" →
  key_global globals_with_Keys name = key_global module_globals name.
Proof.
  intros Hn. unfold key_global, load_global, globals_with_Keys.
  rewrite lookup_insert_ne by congruence. reflexivity.
Qed.

(** [add_opponent] appends the snapshot and one quality, the largest
    stored quality or 0 for an empty pool. *)
Lemma add_opponent_appends_pair km s blob models qs :
  ks !! "OP_MODELS" = Some km →
  km ≠ "qualities" →
  get_list s km = Some models →
  get_list s "qualities" = Some (map Num qs) →
  ∃ s', run (add_opponent globals_with_Keys blob) s = (Ok (), s')
        ∧ get_list s' km = Some (models ++ [blob])
        ∧ get_list s' "qualities" = Some (map Num (qs ++ [initial_quality qs])).
Proof.
  intros Hkm Hne Hm Hq. unfold add_opponent.
  rewrite (key_of_Keys_bound _ _ Hkm).
  rewrite key_global_with_Keys, key_global_QUALITIES by discriminate.
  set (s1 := <[km := VList (models ++ [blob])]> s).
  assert (H1 : exec (RPUSH km [blob]) s
               = (RInt (Z.of_nat (length (models ++ [blob]))), s1)).
  { unfold get_list in Hm. cbn [exec].
    destruct (s !! km) as [[?|l]|] eqn:E; try discriminate;
      injection Hm as <-; reflexivity. }
  assert (Hq1 : s1 !! "qualities" = s !! "qualities").
  { unfold s1. apply lookup_insert_ne. exact Hne. }
  assert (H2 : exec (LRANGE "qualities" 0 (-1)) s1 = (RMulti (map Num qs), s1)).
  { unfold get_list in Hq. cbn [exec]. rewrite Hq1.
    destruct (s !! "qualities") as [[?|l]|] eqn:E; try discriminate;
      injection Hq as <-; [rewrite lrange_all|]; reflexivity. }
  set (q := initial_quality qs).
  set (s2 := <["qualities" := VList (map Num (qs ++ [q]))]> s1).
  assert (H3 : ∃ r, exec (RPUSH "qualities" [Num q]) s1 = (RInt r, s2)).
  { unfold get_list in Hq. cbn [exec]. rewrite Hq1. unfold s2.
    destruct (s !! "qualities") as [[?|l]|] eqn:E; try discriminate;
      injection Hq as Hq; rewrite map_app; cbn [map].
    - rewrite Hq. eauto.
    - destruct qs; [eauto|discriminate]. }
  destruct H3 as [r H3].
  exists s2. split; [|split].
  - prog_simpl. rewrite H1. prog_simpl. rewrite H2. prog_simpl.
    rewrite rmapM_py_float_Num. prog_simpl.
    fold (initial_quality qs). fold q. rewrite H3. reflexivity.
  - unfold get_list, s2, s1.
    rewrite lookup_insert_ne by congruence. rewrite lookup_insert_eq. reflexivity.
  - unfold get_list, s2. rewrite lookup_insert_eq. reflexivity.
Qed.

End KeysBound.

(** With [Keys] bound, the scenario of the specification: an empty pool,
    then two promotions. *)
Lemma add_opponent_twice_with_Keys ks km blob_A blob_B :
  ks !! "OP_MODELS" = Some km →
  km ≠ "qualities" →
  ∃ s1 s2,
    run (add_opponent (globals_with_Keys ks) blob_A) ∅ = (Ok (), s1)
    ∧ get_list s1 "qualities" = Some [Num 0%R]
    ∧ run (add_opponent (globals_with_Keys ks) blob_B) s1 = (Ok (), s2)
    ∧ get_list s2 "qualities" = Some [Num 0%R; Num 0%R]
    ∧ get_list s2 km = Some [blob_A; blob_B].
Proof.
  intros Hkm Hne.
  destruct (add_opponent_appends_pair ks km ∅ blob_A [] [] Hkm Hne)
    as (s1 & Hr1 & Hm1 & Hq1); [reflexivity..|].
  destruct (add_opponent_appends_pair ks km s1 blob_B [blob_A] [0%R] Hkm Hne Hm1 Hq1)
    as (s2 & Hr2 & Hm2 & Hq2).
  exists s1, s2. repeat split; assumption.
Qed.

(** C5.  The module as written: promoting [blob_A] into the empty pool
    raises [NameError] and stores nothing, so the quality list stays
    empty instead of becoming [[0.0]]. *)
Theorem add_opponent_empty_pool_stores_nothing :
  let blob_A := Bytes "blob_A" in
  run (add_opponent module_globals blob_A) ∅ = (Raised (NameError "Keys"), ∅)
  ∧ get_list (run (add_opponent module_globals blob_A) ∅).2 "qualities" = Some []
  ∧ get_list (run (add_opponent module_globals blob_A) ∅).2 "qualities"
    ≠ Some [Num 0%R].
Proof.
  intros blob_A.
  assert (H : add_opponent module_globals blob_A = Raise (NameError "Keys")).
  { unfold add_opponent. rewrite key_of_Keys_unbound. reflexivity. }
  rewrite H. cbn [run snd]. repeat split. discriminate.
Qed.

(** ** Publishing the latest model *)

(** Modelled from the spec: [read_latest() -> (blob, version)], two
    point-in-time reads with no atomicity across them.  ([worker.py]
    itself reads only the blob.) *)
Definition read_latest (kb kv : string) : prog (reply * reply) :=
  b ← redis_call (GET kb);
  v ← redis_call (GET kv);
  mret (b, v).

(** The two threads of the publication scenario, with a common result
    type: the reader returns what it saw. *)
Definition publisher (g : globals) (dump : list rstr) (version : rstr)
  : prog (option (reply * reply)) :=
  update_model g dump version;; mret None.

Definition reader (kb kv : string) : prog (option (reply * reply)) :=
  o ← read_latest kb kv; mret (Some o).


Definition latest_keys : gmap string string :=
  list_to_map [("MODEL_LATEST", "model-latest");
               ("VERSION_LATEST", "model-version")].

Definition store_v1 : store :=
  <["model-latest" := VString (Bytes "blob1")]>
    (<["model-version" := VString (Bytes "1")]> ∅).





(** With [Keys] bound: both reads between the deletions and the sets. *)
Lemma missing_read_schedule :
  sys_run [0; 0; 1; 1; 0; 0]%nat
    ([publisher (globals_with_Keys latest_keys) [Bytes "blob2"] (Bytes "2");
      reader "model-latest" "model-version"], store_v1)
  = Some ([Ret None; Ret (Some (RNil, RNil))],
          <["model-latest" := VString (Bytes "blob2")]>
            (<["model-version" := VString (Bytes "2")]> ∅)).
Proof. vm_compute. reflexivity. Qed.


(** *** Two threads, step by step *)

Section TwoThreads.
Context {A : Type}.
Implicit Types (t : prog A) (s : store) (sched : list nat).

Lemma sys_run_first sched c k t s :
  sys_run (0%nat :: sched) ([Call c k; t], s)
  = sys_run sched ([k (exec c s).1; t], (exec c s).2).
Proof. cbn. destruct (exec c s). reflexivity. Qed.

Lemma sys_run_second sched c k t s :
  sys_run (1%nat :: sched) ([t; Call c k], s)
  = sys_run sched ([t; k (exec c s).1], (exec c s).2).
Proof. cbn. destruct (exec c s). reflexivity. Qed.






End TwoThreads.

Ltac prog_simpl_in H :=
  cbn [mbind mret prog_bind prog_ret result_bind result_ret bind rbind lift
       run trace redis_call as_multi as_int msgpack_loads fst snd] in H.


Section PublishFourCommands.
Variables (ks : gmap string string) (kb kv : string).
Hypothesis Hkb : ks !! "MODEL_LATEST" = Some kb.
Hypothesis Hkv : ks !! "VERSION_LATEST" = Some kv.
Hypothesis Hne : kb ≠ kv.

Variables (s : store) (old_blob old_version blob version : rstr).
Hypothesis Hob : s !! kb = Some (VString old_blob).
Hypothesis Hov : s !! kv = Some (VString old_version).

#[local] Abbreviation g := (globals_with_Keys ks).




#[local] Abbreviation s4 :=
  (<[kv := VString version]> (<[kb := VString blob]> (delete kv (delete kb s)))).







End PublishFourCommands.


(** ** Quality updates *)

Lemma norm_index_length {A} (l l' : list A) i :
  length l' = length l → norm_index l' i = norm_index l i.
Proof. intros H. unfold norm_index. rewrite H. reflexivity. Qed.

Lemma norm_index_lt {A} (l : list A) i j :
  norm_index l i = Some j → (j < length l)%nat.
Proof.
  unfold norm_index. intros H.
  destruct (_ && _) eqn:E; [|discriminate]. injection H as <-.
  apply andb_prop in E as [E1 E2].
  apply Z.leb_le in E1. apply Z.ltb_lt in E2. lia.
Qed.

Lemma lindex_Some_length {A} (l : list A) i x :
  lindex l i = Some x → (0 < length l)%nat.
Proof.
  unfold lindex. destruct (norm_index l i) as [j|] eqn:E; [|discriminate].
  intros _. apply norm_index_lt in E. lia.
Qed.

Lemma lset_lindex {A} (l : list A) i x y :
  lindex l i = Some x →
  ∃ l', lset l i y = Some l' ∧ length l' = length l ∧ lindex l' i = Some y
        ∧ ∀ j, norm_index l j ≠ norm_index l i → lindex l' j = lindex l j.
Proof.
  unfold lindex, lset. destruct (norm_index l i) as [k|] eqn:E; [|discriminate].
  intros _. exists (<[k := y]> l).
  assert (Hlen : length (<[k := y]> l) = length l) by apply length_insert.
  split; [reflexivity|]. split; [exact Hlen|]. split.
  - rewrite (norm_index_length _ _ _ Hlen), E.
    apply list_lookup_insert_eq. eapply norm_index_lt, E.
  - intros j Hj. rewrite (norm_index_length _ _ _ Hlen).
    destruct (norm_index l j) as [k'|]; [|reflexivity].
    apply list_lookup_insert_ne. congruence.
Qed.

Section QualityDelta.
Variables (s : store) (l : list rstr).
Hypothesis Hq : s !! "qualities" = Some (VList l).

(** [n = redis.llen(QUALITIES)] *)
#[local] Abbreviation pool_size := (IZR (Z.of_nat (length l))).

Lemma update_opponent_quality_unfold index prob rate :
  update_opponent_quality module_globals index prob rate =
    (r ← redis_call (LLEN "qualities");
     n ← as_int r;
     delta ← lift (py_div rate (IZR n * prob));
     redis_call (EVAL_LINDEX_ADD_LSET "qualities" index delta);;
     mret ()).
Proof.
  unfold update_opponent_quality. rewrite key_global_QUALITIES. reflexivity.
Qed.

Lemma py_div_Ok a b : b ≠ 0%R → py_div a b = Ok (a / b)%R.
Proof. intros Hb. unfold py_div. destruct (Req_dec_T b 0); [contradiction|reflexivity]. Qed.

Lemma pool_size_pos : (0 < length l)%nat → (0 < pool_size)%R.
Proof. intros H. apply IZR_lt. lia. Qed.

(** C8.  With a non-empty quality list and a positive selection
    probability, [update_opponent_quality] reads the list length [n]
    and sends the script the delta [rate / (n * prob)]; where the
    index holds a score, the score becomes the old one plus that
    delta. *)
Theorem quality_delta_formula index prob rate :
  (0 < length l)%nat →
  (0 < prob)%R →
  trace (update_opponent_quality module_globals index prob rate) s
    = [LLEN "qualities";
       EVAL_LINDEX_ADD_LSET "qualities" index (rate / (pool_size * prob))%R]
  ∧ ∀ q, lindex l index = Some (Num q) →
      ∃ l', run (update_opponent_quality module_globals index prob rate) s
            = (Ok (), <["qualities" := VList l']> s)
            ∧ length l' = length l
            ∧ lindex l' index
              = Some (Num (q + rate / (pool_size * prob))%R).
Proof.
  intros Hlen Hprob.
  pose proof (pool_size_pos Hlen) as Hn.
  assert (Hd : (pool_size * prob ≠ 0)%R) by nra.
  rewrite update_opponent_quality_unfold. prog_simpl.
  cbn [exec]. rewrite Hq. prog_simpl.
  rewrite (py_div_Ok _ _ Hd). prog_simpl.
  split.
  - destruct (exec _ s) as [[] ?]; reflexivity.
  - intros q Hidx.
    destruct (lset_lindex l index (Num q) (Num (q + rate / (pool_size * prob))%R) Hidx)
      as (l' & Hset & Hlen' & Hget & _).
    exists l'. cbn [exec]. rewrite Hq, Hidx. cbn [tonumber].
    rewrite Hset. prog_simpl. auto.
Qed.

End QualityDelta.

Lemma quality_delta_formula_witness :
  let s : store := <["qualities" := VList [Num 1%R; Num 3%R]]> ∅ in
  trace (update_opponent_quality module_globals 1 (1 / 2)%R 1%R) s
  = [LLEN "qualities";
     EVAL_LINDEX_ADD_LSET "qualities" 1 (1 / (IZR (Z.of_nat 2) * (1 / 2)))%R].
Proof.
  intros s.
  exact (proj1 (quality_delta_formula s [Num 1%R; Num 3%R]
                  (lookup_insert_eq _ _ _) 1 (1 / 2)%R 1%R
                  ltac:(cbn; lia) ltac:(lra))).
Defined.

(** ** Concurrent quality updates *)

Section ConcurrentUpdates.
Variables (index : Z) (n : nat).

(** A caller is the pair [(prob, rate)] it passes. *)
Definition caller : Type := R * R.

Definition delta_of (c : caller) : R := (c.2 / (IZR (Z.of_nat n) * c.1))%R.

(** The three stages of a call: before [LLEN], between [LLEN] and the
    script, and returned. *)
Definition before_llen (c : caller) : prog unit :=
  update_opponent_quality module_globals index c.1 c.2.

Definition before_eval (c : caller) : prog unit :=
  redis_call (EVAL_LINDEX_ADD_LSET "qualities" index (delta_of c));; mret ().

(** [stage c t a]: thread [t] is a call of [c] in one of its stages,
    and has added [a] to the score so far. *)
Inductive stage (c : caller) : prog unit → R → Prop :=
| stage_before_llen : stage c (before_llen c) 0
| stage_before_eval : stage c (before_eval c) 0
| stage_returned : stage c (Ret ()) (delta_of c).

(** [stages cs ts total]: the threads [ts] are calls of [cs], and
    [total] is what they have added together. *)
Inductive stages : list caller → list (prog unit) → R → Prop :=
| stages_nil : stages [] [] 0
| stages_cons c cs t ts a total :
    stage c t a → stages cs ts total →
    stages (c :: cs) (t :: ts) (a + total).

Fixpoint sum_deltas (cs : list caller) : R :=
  match cs with
  | [] => 0
  | c :: cs' => delta_of c + sum_deltas cs'
  end.

Definition initial_threads (cs : list caller) : list (prog unit) :=
  map before_llen cs.

Lemma stages_initial cs : stages cs (initial_threads cs) 0.
Proof.
  induction cs as [|c cs IH]; cbn.
  - constructor.
  - replace 0%R with (0 + 0)%R by lra. constructor; [constructor|exact IH].
Qed.

Lemma stages_finished cs ts total :
  stages cs ts total → Forall finished ts →
  total = sum_deltas cs ∧ ts = map (λ _, Ret ()) cs.
Proof.
  induction 1 as [|c cs t ts a total Hst Hsts IH]; intros Hfin.
  - split; reflexivity.
  - inversion Hfin as [|? ? Ht Hts]; subst.
    destruct (IH Hts) as [-> ->].
    destruct Hst; cbn.
    + unfold before_llen in Ht. rewrite update_opponent_quality_unfold in Ht.
      destruct Ht.
    + destruct Ht.
    + split; reflexivity.
Qed.

Hypothesis Hn : (0 < n)%nat.

(** What a thread in some stage does on its next call. *)
Lemma stage_step c t a cmd k :
  c.1 ≠ 0%R → stage c t a → t = Call cmd k →
  (cmd = LLEN "qualities" ∧ a = 0%R
   ∧ stage c (k (RInt (Z.of_nat n))) 0)
  ∨ (cmd = EVAL_LINDEX_ADD_LSET "qualities" index (delta_of c) ∧ a = 0%R
     ∧ stage c (k RStatusOk) (delta_of c)).
Proof.
  intros Hp Hst Ht. destruct Hst.
  - left. unfold before_llen in Ht.
    rewrite update_opponent_quality_unfold in Ht.
    injection Ht as <- <-. split; [reflexivity|]. split; [reflexivity|].
    prog_simpl. rewrite py_div_Ok.
    + apply stage_before_eval.
    + apply Rmult_integral_contrapositive_currified; [|exact Hp].
      apply not_0_IZR. lia.
  - right. injection Ht as <- <-. split; [reflexivity|]. split; [reflexivity|].
    apply stage_returned.
  - discriminate Ht.
Qed.

Lemma stages_step cs ts total i cmd k :
  Forall (λ c : caller, c.1 ≠ 0%R) cs →
  stages cs ts total → ts !! i = Some (Call cmd k) →
  (cmd = LLEN "qualities"
   ∧ stages cs (<[i := k (RInt (Z.of_nat n))]> ts) total)
  ∨ (∃ d, cmd = EVAL_LINDEX_ADD_LSET "qualities" index d
          ∧ stages cs (<[i := k RStatusOk]> ts) (total + d)).
Proof.
  intros Hps Hsts. revert i.
  induction Hsts as [|c cs t ts a total Hst Hsts IH]; intros i Hi.
  - discriminate Hi.
  - inversion Hps as [|? ? Hp Hps']; subst.
    destruct i as [|i]; cbn in Hi.
    + injection Hi as ->.
      destruct (stage_step c _ a cmd k Hp Hst eq_refl)
        as [(-> & -> & Hst') | (-> & -> & Hst')].
      * left. split; [reflexivity|]. cbn. constructor; assumption.
      * right. exists (delta_of c). split; [reflexivity|]. cbn.
        replace (0 + total + delta_of c)%R with (delta_of c + total)%R by lra.
        constructor; assumption.
    + destruct (IH Hps' i Hi) as [[-> H'] | (d & -> & H')].
      * left. split; [reflexivity|]. cbn. constructor; assumption.
      * right. exists d. split; [reflexivity|]. cbn.
        replace (a + total + d)%R with (a + (total + d))%R by lra.
        constructor; assumption.
Qed.

(** The invariant of every schedule: the list keeps its length and the
    score at [index] is the original one plus what the returned calls
    have added. *)
Lemma schedule_invariant cs q0 sched :
  Forall (λ c : caller, c.1 ≠ 0%R) cs →
  ∀ ts (s : store) l total ts' s',
    stages cs ts total →
    s !! "qualities" = Some (VList l) → length l = n →
    lindex l index = Some (Num (q0 + total)%R) →
    sys_run sched (ts, s) = Some (ts', s') →
    ∃ l' total',
      stages cs ts' total'
      ∧ s' !! "qualities" = Some (VList l') ∧ length l' = n
      ∧ lindex l' index = Some (Num (q0 + total')%R).
Proof.
  intros Hps. induction sched as [|i sched IH];
    intros ts s l total ts' s' Hsts Hs Hlen Hidx Hrun.
  - injection Hrun as <- <-. eauto 10.
  - cbn [sys_run] in Hrun. unfold sys_step in Hrun. cbn [fst snd] in Hrun.
    destruct (ts !! i) as [[| |cmd k]|] eqn:Hi; try discriminate Hrun.
    destruct (stages_step cs ts total i cmd k Hps Hsts Hi)
      as [[-> Hsts'] | (d & -> & Hsts')].
    + cbn [exec] in Hrun. rewrite Hs, Hlen in Hrun.
      eapply IH; eauto.
    + cbn [exec] in Hrun. rewrite Hs, Hidx in Hrun. cbn [tonumber] in Hrun.
      destruct (lset_lindex l index _ (Num (q0 + total + d)%R) Hidx)
        as (l1 & Hset & Hlen1 & Hget & _).
      rewrite Hset in Hrun.
      eapply (IH _ _ l1 (total + d)%R); eauto.
      * apply lookup_insert_eq.
      * congruence.
      * rewrite Hget. do 2 f_equal. lra.
Qed.

End ConcurrentUpdates.

(** C1.  Any number of callers of [update_opponent_quality] on one index
    of the quality list, under any schedule of their server calls that
    lets all of them return: the stored score is the original score plus
    the sum of the callers' deltas [rate / (n * prob)], and the list has
    kept its length.  The read-modify-write is the one call
    [EVAL_LINDEX_ADD_LSET], so no schedule separates the read from the
    write. *)
Theorem concurrent_quality_updates_add_up :
  ∀ (index : Z) (s : store) (l : list rstr) (q0 : R)
    (callers : list caller) (sched : list nat) ts' s',
    s !! "qualities" = Some (VList l) →
    lindex l index = Some (Num q0) →
    Forall (λ c : caller, c.1 ≠ 0%R) callers →
    sys_run sched (initial_threads index callers, s) = Some (ts', s') →
    Forall finished ts' →
    ts' = map (λ _, Ret ()) callers
    ∧ ∃ l', s' !! "qualities" = Some (VList l')
            ∧ length l' = length l
            ∧ lindex l' index
              = Some (Num (q0 + sum_deltas (length l) callers)%R).
Proof.
  intros index s l q0 callers sched ts' s' Hs Hidx Hps Hrun Hfin.
  pose proof (lindex_Some_length _ _ _ Hidx) as Hn.
  destruct (schedule_invariant index (length l) Hn callers q0 sched Hps
              (initial_threads index callers) s l 0%R ts' s')
    as (l' & total' & Hsts & Hs' & Hlen' & Hidx'); auto.
  - apply stages_initial.
  - rewrite Hidx. do 2 f_equal. lra.
  - destruct (stages_finished _ _ _ _ _ Hsts Hfin) as [-> ->].
    split; [reflexivity|]. eauto.
Qed.

(** Two callers on index 1 of [[1; 3]], the second one overtaking the
    first between its [LLEN] and its script. *)
Lemma two_callers_schedule :
  let s : store := <["qualities" := VList [Num 1%R; Num 3%R]]> ∅ in
  let callers : list caller := [((1 / 2)%R, 1%R); ((1 / 4)%R, 2%R)] in
  ∃ s', sys_run [0; 1; 1; 0]%nat (initial_threads 1 callers, s)
        = Some ([Ret (); Ret ()], s').
Proof.
  intros s callers. subst s callers. unfold initial_threads, before_llen.
  cbn [map fst snd]. rewrite !update_opponent_quality_unfold. prog_simpl.
  rewrite sys_run_first. cbn [exec fst snd].
  rewrite !lookup_insert_eq. prog_simpl. rewrite py_div_Ok
    by (apply Rmult_integral_contrapositive_currified;
        [apply not_0_IZR; cbn; lia | lra]).
  prog_simpl.
  rewrite sys_run_second. cbn [exec fst snd].
  rewrite !lookup_insert_eq. prog_simpl. rewrite py_div_Ok
    by (apply Rmult_integral_contrapositive_currified;
        [apply not_0_IZR; cbn; lia | lra]).
  prog_simpl.
  assert (Hget : ∀ x y : R, lindex [Num x; Num y] 1 = Some (Num y))
    by reflexivity.
  assert (Hset : ∀ (x y : R) v, lset [Num x; Num y] 1 v = Some [Num x; v])
    by reflexivity.
  rewrite sys_run_second. cbn [exec fst snd].
  rewrite !lookup_insert_eq, Hget. cbn [tonumber]. rewrite Hset. prog_simpl.
  rewrite sys_run_first. cbn [exec fst snd].
  rewrite !lookup_insert_eq, Hget. cbn [tonumber]. rewrite Hset. prog_simpl.
  eexists. reflexivity.
Qed.

Lemma concurrent_quality_updates_add_up_witness :
  let s : store := <["qualities" := VList [Num 1%R; Num 3%R]]> ∅ in
  let callers : list caller := [((1 / 2)%R, 1%R); ((1 / 4)%R, 2%R)] in
  ∃ s' l',
    sys_run [0; 1; 1; 0]%nat (initial_threads 1 callers, s)
      = Some ([Ret (); Ret ()], s')
    ∧ s' !! "qualities" = Some (VList l')
    ∧ lindex l' 1 = Some (Num (3 + sum_deltas 2 callers)%R).
Proof.
  intros s callers.
  destruct two_callers_schedule as [s' Hrun].
  destruct (concurrent_quality_updates_add_up 1 s [Num 1%R; Num 3%R] 3%R
              callers [0; 1; 1; 0]%nat [Ret (); Ret ()] s'
              (lookup_insert_eq _ _ _) eq_refl
              ltac:(repeat constructor; cbn; lra)
              Hrun ltac:(repeat constructor))
    as (_ & l' & Hs' & _ & Hidx).
  exists s', l'. auto.
Defined.

(** ** The adjusted probability *)

Local Open Scope R_scope.

(** The scenario of the specification: three seats, target 0.8. *)
Example adjusted_prob_three_seats : adjusted_prob current_version_prob 3 = 7 / 10.
Proof. unfold adjusted_prob, current_version_prob. field. Qed.



(** ** Softmax *)

Lemma Rmax_shift (a b c : R) : Rmax (a + c) (b + c) = Rmax a b + c.
Proof. unfold Rmax. do 2 destruct (Rle_dec _ _); lra. Qed.

Lemma fold_left_Rmax_shift (l : list R) (a c : R) :
  fold_left Rmax (map (λ x, x + c) l) (a + c) = fold_left Rmax l a + c.
Proof.
  revert a. induction l as [|x l IH]; intros a; cbn [map fold_left].
  - reflexivity.
  - rewrite Rmax_shift. apply IH.
Qed.

Lemma np_sum_pos (l : list R) :
  l ≠ [] → Forall (λ x, 0 < x) l → 0 < np_sum l.
Proof.
  intros Hne H. induction H as [|x l Hx Hl IH]; [congruence|].
  cbn [np_sum fold_right]. destruct l as [|y l].
  - cbn. lra.
  - assert (0 < np_sum (y :: l)) by (apply IH; discriminate).
    unfold np_sum in *. lra.
Qed.

Lemma np_sum_div (l : list R) (d : R) :
  np_sum (map (λ e, e / d) l) = np_sum l / d.
Proof.
  induction l as [|x l IH]; cbn [map np_sum fold_right].
  - unfold Rdiv. ring.
  - fold (np_sum (map (λ e, e / d) l)). fold (np_sum l). rewrite IH.
    unfold Rdiv. ring.
Qed.

Lemma exp_map_pos (l : list R) (m : R) :
  Forall (λ x, 0 < x) (map (λ v, exp (v - m)) l).
Proof. apply Forall_map, Forall_forall. intros x _. apply exp_pos. Qed.

(** On a non-empty vector [_softmax] returns positive entries, one per
    score, that sum to 1. *)
Lemma softmax_distribution (q : list R) :
  q ≠ [] →
  ∃ d, _softmax q = Ok d
       ∧ length d = length q
       ∧ Forall (λ x, 0 < x) d
       ∧ np_sum d = 1.
Proof.
  intros Hq. destruct q as [|a l]; [congruence|].
  unfold _softmax. cbn [np_max mbind mret result_bind result_ret rbind].
  set (m := fold_left Rmax l a).
  set (e_x := map (λ v, exp (v - m)) (a :: l)).
  assert (Hpos : Forall (λ x, 0 < x) e_x) by apply exp_map_pos.
  assert (Hsum : 0 < np_sum e_x) by (apply np_sum_pos; [discriminate|exact Hpos]).
  eexists. split; [reflexivity|]. split; [|split].
  - unfold e_x. rewrite !length_map. reflexivity.
  - apply Forall_map. eapply Forall_impl; [exact Hpos|].
    intros x Hx. cbn. apply Rdiv_lt_0_compat; assumption.
  - rewrite np_sum_div. field. lra.
Qed.

(** Subtracting the maximum cancels a constant added to every score. *)
Lemma softmax_shift (q : list R) (c : R) :
  _softmax (map (λ x, x + c) q) = _softmax q.
Proof.
  destruct q as [|a l]; [reflexivity|].
  change (map (λ x, x + c) (a :: l)) with (a + c :: map (λ x, x + c) l).
  unfold _softmax. cbn [np_max mbind mret result_bind result_ret rbind].
  rewrite fold_left_Rmax_shift.
  set (m := fold_left Rmax l a).
  assert (He : map (λ v, exp (v - (m + c))) (a + c :: map (λ x, x + c) l)
               = map (λ v, exp (v - m)) (a :: l)).
  { cbn [map]. f_equal.
    - f_equal. ring.
    - rewrite map_map. apply map_ext. intros x. f_equal. ring. }
  rewrite He. reflexivity.
Qed.

(** C7.  On a non-empty vector [_softmax] returns a distribution whose
    entries are positive and sum to 1, and adding one constant to every
    score gives the same distribution. *)
Theorem softmax_sums_to_one_and_shift_invariant (q : list R) :
  q ≠ [] →
  ∃ d, _softmax q = Ok d
       ∧ length d = length q
       ∧ Forall (λ x, 0 < x) d
       ∧ np_sum d = 1
       ∧ ∀ c, _softmax (map (λ x, x + c) q) = Ok d.
Proof.
  intros Hq.
  destruct (softmax_distribution q Hq) as (d & Hd & Hlen & Hpos & Hsum).
  exists d. repeat split; try assumption.
  intros c. rewrite softmax_shift. exact Hd.
Qed.

Lemma softmax_sums_to_one_and_shift_invariant_witness :
  ∃ d, _softmax [1; 3] = Ok d ∧ np_sum d = 1
       ∧ _softmax (map (λ x, x + 5) [1; 3]) = Ok d.
Proof.
  destruct (softmax_sums_to_one_and_shift_invariant [1; 3] ltac:(discriminate))
    as (d & Hd & _ & _ & Hsum & Hshift).
  exists d. auto.
Defined.

(** ** Sampling from a non-empty pool *)

Lemma last_cumsum (acc : R) (p : list R) :
  p ≠ [] → last (cumsum acc p) = Some (acc + np_sum p).
Proof.
  revert acc. induction p as [|x p IH]; intros acc Hp; [congruence|].
  destruct p as [|y p].
  - cbn. f_equal. lra.
  - change (cumsum acc (x :: y :: p)) with ((acc + x) :: cumsum (acc + x) (y :: p)).
    rewrite last_cons, IH by discriminate.
    cbn [np_sum fold_right]. f_equal. lra.
Qed.

Lemma last_map_Some {A B} (f : A → B) (l : list A) (x : A) :
  last l = Some x → last (map f l) = Some (f x).
Proof.
  induction l as [|y l IH]; intros H; [discriminate H|].
  destruct l as [|z l].
  - cbn in *. congruence.
  - change (map f (y :: z :: l)) with (f y :: f z :: map f l).
    rewrite last_cons_cons in *. apply IH. exact H.
Qed.

Lemma searchsorted_right_lt (cdf : list R) (u c : R) :
  last cdf = Some c → u < c →
  (searchsorted_right cdf u < length cdf)%nat.
Proof.
  induction cdf as [|x cdf IH]; intros Hl Hu; [discriminate Hl|].
  cbn [searchsorted_right length]. destruct (Rlt_dec u x) as [_|Hx]; [lia|].
  destruct cdf as [|y cdf].
  - cbn in Hl. injection Hl as ->. contradiction.
  - rewrite last_cons in Hl.
    destruct (last (y :: cdf)) as [c'|] eqn:E; injection Hl as ->.
    + apply IH in Hu; [lia|reflexivity].
    + contradiction.
Qed.

(** The drawn index lies within the distribution when the uniform
    sample is below 1. *)
Lemma random_choice_lt (p : list R) (u : R) :
  p ≠ [] → 0 < np_sum p → u < 1 →
  (random_choice p u < length p)%nat.
Proof.
  intros Hp Hs Hu. unfold random_choice.
  rewrite (last_cumsum 0 p Hp). cbn [default].
  replace (0 + np_sum p) with (np_sum p) by lra.
  assert (Hlen : ∀ acc, length (cumsum acc p) = length p).
  { clear. induction p as [|x p IH]; intros acc; cbn; [|rewrite IH]; reflexivity. }
  rewrite <- (Hlen 0), <- (length_map (λ c, c / np_sum p)).
  apply searchsorted_right_lt with (c := 1); [|exact Hu].
  rewrite (last_map_Some _ _ _ (last_cumsum 0 p Hp)). f_equal. field. lra.
Qed.

(** X28.  With at least one stored quality, [get_opponent_index]
    returns an index of the list together with its positive softmax
    probability, and writes nothing. *)
Lemma get_opponent_index_nonempty_pool (s : store) (qs : list R) (u : R) :
  s !! "qualities" = Some (VList (map Num qs)) →
  qs ≠ [] → u < 1 →
  ∃ i pr d, run (get_opponent_index module_globals u) s = (Ok (i, pr), s)
            ∧ _softmax qs = Ok d
            ∧ d !! i = Some pr
            ∧ 0 < pr.
Proof.
  intros Hs Hq Hu.
  destruct (softmax_distribution qs Hq) as (d & Hd & Hlen & Hpos & Hsum).
  assert (Hd0 : d ≠ []) by (intros ->; destruct qs; [congruence|discriminate Hlen]).
  assert (Hi : (random_choice d u < length d)%nat)
    by (apply random_choice_lt; [exact Hd0|lra|exact Hu]).
  destruct (lookup_lt_is_Some_2 _ _ Hi) as [pr Hpr].
  exists (random_choice d u), pr, d.
  split; [|split; [exact Hd|split; [exact Hpr|]]].
  - unfold get_opponent_index. rewrite key_global_QUALITIES.
    prog_simpl. cbn [exec]. rewrite Hs, lrange_all. prog_simpl.
    rewrite rmapM_py_float_Num. prog_simpl. rewrite Hd. prog_simpl.
    rewrite Hpr. reflexivity.
  - eapply Forall_lookup_1 in Hpos; [exact Hpos|exact Hpr].
Qed.

Local Close Scope R_scope.

(** ** Sampling from an empty pool *)

(** [get_opponent_index] on a store without qualities: the list is
    fetched, [_softmax] gets the empty vector and [np.max] raises. *)
Lemma get_opponent_index_empty_pool (s : store) (u : R) :
  s !! "qualities" = None →
  run (get_opponent_index module_globals u) s = (Raised ValueError, s)
  ∧ trace (get_opponent_index module_globals u) s = [LRANGE "qualities" 0 (-1)].
Proof.
  intros Hq. unfold get_opponent_index. rewrite key_global_QUALITIES.
  prog_simpl. cbn [exec]. rewrite Hq. split; reflexivity.
Qed.

(** No guard stands between the sampler and the estimator: with two or
    more seats, as soon as a draw is not below the adjusted probability,
    the worker asks for an opponent although the pool is empty. *)
Lemma worker_matchup_empty_pool (E : entropy) (n_agents : Z) (p : R)
    (s : store) (latest : rstr) :
  s !! "model-latest" = Some (VString latest) →
  s !! "qualities" = None →
  1 < n_agents →
  ¬ (sample E 0 < adjusted_prob p n_agents)%R →
  run (worker_matchup module_globals E n_agents p) s = (Raised ValueError, s)
  ∧ trace (worker_matchup module_globals E n_agents p) s
    = [GET "model-latest"; LRANGE "qualities" 0 (-1)].
Proof.
  intros Hl Hq Hn Hu. unfold worker_matchup.
  rewrite !key_global_MODEL_LATEST. prog_simpl. cbn [exec]. rewrite Hl.
  prog_simpl.
  destruct (Z.ltb_spec 1 n_agents) as [_|]; [|lia].
  destruct (Z.to_nat (n_agents - 1)) as [|count] eqn:Hc; [lia|].
  cbn [seats_loop]. destruct (Rlt_dec _ _) as [|_]; [contradiction|].
  unfold get_opponent_index. rewrite key_global_QUALITIES.
  prog_simpl. cbn [exec]. rewrite Hq. split; reflexivity.
Qed.

Definition late_draws : entropy :=
  {| sample := λ _, (9 / 10)%R; interval := λ _, 0%nat |}.

Definition store_latest_only : store :=
  <["model-latest" := VString (Bytes "latest")]> ∅.

(** C4.  Two seats, no historical snapshot, and a first draw of 0.9
    against the adjusted probability 0.6: the worker does not fall back
    to the latest policy; it fetches the (empty) quality list, calls the
    estimator on it and fails with [ValueError]. *)
Theorem worker_empty_pool_calls_estimator :
  run (worker_matchup module_globals late_draws 2 current_version_prob)
      store_latest_only
  = (Raised ValueError, store_latest_only)
  ∧ trace (worker_matchup module_globals late_draws 2 current_version_prob)
      store_latest_only
    = [GET "model-latest"; LRANGE "qualities" 0 (-1)].
Proof.
  apply (worker_matchup_empty_pool late_draws 2 current_version_prob
           store_latest_only (Bytes "latest")).
  - apply lookup_insert_eq.
  - unfold store_latest_only. rewrite lookup_insert_ne by discriminate.
    apply lookup_empty.
  - lia.
  - unfold adjusted_prob, current_version_prob, late_draws. cbn [sample]. lra.
Qed.

(** When every draw falls below the adjusted probability the estimator
    is not consulted and every seat gets the latest policy. *)
Lemma seats_loop_all_current (E : entropy) (current : rstr) (p adjusted : R)
    (count ns : nat) (agents : list seat) (s : store) :
  (∀ i, (sample E i < adjusted)%R) →
  ∃ agents', run (seats_loop module_globals E current p adjusted count ns agents) s
             = (Ok (agents ++ agents', (ns + count)%nat), s)
             ∧ agents' = replicate count (current, "model-latest", Some p).
Proof.
  intros Hu. revert ns agents. induction count as [|count IH]; intros ns agents.
  - exists []. cbn. rewrite app_nil_r, Nat.add_0_r. split; reflexivity.
  - cbn [seats_loop]. destruct (Rlt_dec _ _) as [_|Hn]; [|destruct (Hn (Hu ns))].
    rewrite key_global_MODEL_LATEST. prog_simpl.
    destruct (IH (S ns) (agents ++ [(current, "model-latest", Some p)]))
      as (agents' & Hrun & ->).
    eexists. split; [|reflexivity].
    rewrite Hrun. cbn [replicate]. rewrite <- app_assoc.
    do 3 f_equal. lia.
Qed.

(** * Properties of the episode loop *)

Import DefaultManager.

Section EpisodeProperties.
Context {Env Obs Action GState Info AgentSt : Type}.
Variable env_reset : Env → options → Env * (dict Obs * Info).
Variable env_step : Env → dict Action → Env * @step_result Obs Info.
Variable env_agents : Env → list string.
Variable env_state : Env → GState.
Variable agent_act : AgentSt → dict Obs → AgentSt * dict Action.
Variable agent_end : AgentSt → GState → dict bool → AgentSt.
Variable car_identifier : dict string.
Variable identifier_agent : dict nat.

#[local] Abbreviation iter :=
  (episode_iter env_step env_agents env_state agent_act agent_end
     car_identifier identifier_agent).
#[local] Abbreviation loop :=
  (episode_loop env_step env_agents env_state agent_act agent_end
     car_identifier identifier_agent).

(** What one pass of the loop body does to the trajectory and to the
    counter, and when it breaks. *)
Lemma episode_iter_inv st st' b :
  iter st = Ok (st', b) →
  all_states st' = all_states st ++ [env_state (env st')]
  ∧ total_agent_steps st'
    = (total_agent_steps st * Z.of_nat (length (env_agents (env st'))))%Z
  ∧ (b = true ↔ env_agents (env st') = []).
Proof.
  unfold episode_iter. intros H.
  destruct (select_actions _ _ _ _ _ _) as [ha|]; [|discriminate H].
  cbn [mbind result_bind rbind] in H.
  destruct (env_step (env st) ha.2) as [e out].
  destruct (notify _ _ _ _ _ _ _) as [n|]; [|discriminate H].
  cbn [mbind mret result_bind result_ret rbind] in H.
  injection H as <- <-. cbn [all_states total_agent_steps env].
  split; [reflexivity|]. split; [reflexivity|].
  destruct (env_agents e); split; congruence.
Qed.

(** A pass that breaks has called no agent's [end]: the cars it would
    notify are those of [env.agents], and the break needs that list to
    be empty. *)
Lemma episode_iter_break_silent st st' :
  iter st = Ok (st', true) →
  env_agents (env st') = [] ∧ end_calls st' = end_calls st.
Proof.
  intros H. pose proof (episode_iter_inv _ _ _ H) as (_ & _ & Hb).
  assert (Hnil : env_agents (env st') = []) by (apply Hb; reflexivity).
  split; [exact Hnil|].
  unfold episode_iter in H.
  destruct (select_actions _ _ _ _ _ _) as [ha|]; [|discriminate H].
  cbn [mbind result_bind rbind] in H.
  destruct (env_step (env st) ha.2) as [e out].
  destruct (notify _ _ _ _ _ _ _) as [n|] eqn:Hnot; [|discriminate H].
  cbn [mbind mret result_bind result_ret rbind] in H.
  injection H as <-. cbn [env] in Hnil. rewrite Hnil in Hnot.
  cbn [notify] in Hnot. injection Hnot as <-. reflexivity.
Qed.

Lemma episode_loop_total fuel : ∀ st st',
  loop fuel st = Some (Ok st') →
  total_agent_steps st = 0%Z → total_agent_steps st' = 0%Z.
Proof.
  induction fuel as [|fuel IH]; intros st st' H H0; [discriminate H|].
  cbn [episode_loop] in H.
  destruct (iter st) as [[st1 b]|] eqn:Hit; [|discriminate H].
  pose proof (episode_iter_inv _ _ _ Hit) as (_ & Ht & _).
  rewrite H0, Z.mul_0_l in Ht.
  destruct b.
  - injection H as <-. exact Ht.
  - eapply IH; eassumption.
Qed.

Lemma episode_loop_last_pass fuel : ∀ st st',
  loop fuel st = Some (Ok st') →
  ∃ st_last, iter st_last = Ok (st', true)
             ∧ (length (all_states st) ≤ length (all_states st_last))%nat.
Proof.
  induction fuel as [|fuel IH]; intros st st' H; [discriminate H|].
  cbn [episode_loop] in H.
  destruct (iter st) as [[st1 b]|] eqn:Hit; [|discriminate H].
  destruct b.
  - injection H as <-. exists st. split; [exact Hit|lia].
  - destruct (IH _ _ H) as (st_last & Hl & Hlen).
    exists st_last. split; [exact Hl|].
    pose proof (episode_iter_inv _ _ _ Hit) as (Hs & _).
    rewrite Hs, length_app in Hlen. cbn in Hlen. lia.
Qed.

(** C10.  Whenever [_episode] returns, the step count it returns is 0:
    the counter starts at 0 and is only multiplied. *)
Theorem episode_returns_zero_agent_steps fuel e0 h0 boost_consumption gravity st' :
  _episode env_reset env_step env_agents env_state agent_act agent_end
    car_identifier identifier_agent fuel e0 h0 boost_consumption gravity
    = Some (Ok st') →
  total_agent_steps st' = 0%Z.
Proof.
  unfold _episode. intros H.
  eapply episode_loop_total; [exact H|].
  unfold initial_state. destruct (env_reset _ _) as [e [o i]]. reflexivity.
Qed.

(** X29.  Every returned episode ends with a pass in which
    [env.agents] is empty and no agent is notified; the trajectory is
    the one before that pass plus the state it reached. *)
Lemma episode_last_step_notifies_nobody fuel e0 h0 boost_consumption gravity st' :
  _episode env_reset env_step env_agents env_state agent_act agent_end
    car_identifier identifier_agent fuel e0 h0 boost_consumption gravity
    = Some (Ok st') →
  ∃ st_last,
    iter st_last = Ok (st', true)
    ∧ env_agents (env st') = []
    ∧ end_calls st' = end_calls st_last
    ∧ all_states st' = all_states st_last ++ [env_state (env st')].
Proof.
  unfold _episode. intros H.
  destruct (episode_loop_last_pass _ _ _ H) as (st_last & Hl & _).
  exists st_last. split; [exact Hl|].
  destruct (episode_iter_break_silent _ _ Hl) as [Hnil Hcalls].
  pose proof (episode_iter_inv _ _ _ Hl) as (Hs & _).
  auto.
Qed.

End EpisodeProperties.

(** ** The two-seat scenario *)

Module Scenario.

(** Seat A is the car [blue-0] of agent [agent-a] and ends at step 10;
    seat B is the car [orange-0] of agent [agent-b] and ends at
    step 15. *)
Definition last_step : dict nat := [("blue-0", 10%nat); ("orange-0", 15%nat)].

Definition car_identifier : dict string :=
  [("blue-0", "agent-a"); ("orange-0", "agent-b")].

Definition identifier_agent : dict nat := [("agent-a", 0%nat); ("agent-b", 1%nat)].

Section ScriptedEnv.
(** Two conventions an environment may follow:
    [linger]: a car is still listed in [env.agents] right after the
    step in which it ends (and is dropped at the next step), instead
    of being dropped in that very step;
    [live_obs]: a step returns observations only for the cars that
    took part in it, instead of for all cars. *)
Variables (linger live_obs : bool).

(** The environment state is the number of steps taken. *)
Definition env_agents (k : nat) : list string :=
  map fst (List.filter
             (λ ce : string * nat,
                if linger then (k <=? ce.2)%nat else (k <? ce.2)%nat)
             last_step).

Definition obs_at (k : nat) : dict unit :=
  map (λ ce : string * nat, (ce.1, ()))
    (List.filter (λ ce : string * nat, negb live_obs || (k <=? ce.2)%nat)
       last_step).

Definition env_reset (k : nat) (o : options) : nat * (dict unit * unit) :=
  (0%nat, (obs_at 0, ())).

Definition env_step (k : nat) (actions : dict unit)
  : nat * @step_result unit unit :=
  let k' := S k in
  (k', {| observations := obs_at k';
          rewards := [];
          terminated := map (λ ce : string * nat, (ce.1, (ce.2 =? k')%nat)) last_step;
          truncated := map (λ ce : string * nat, (ce.1, false)) last_step;
          info := () |}).

Definition env_state (k : nat) : nat := k.

(** An agent counts its [act] calls and answers every observation. *)
Definition agent_act (a : nat) (o : dict unit) : nat * dict unit :=
  (S a, map (λ co : string * unit, (co.1, ())) o).

Definition agent_end (a : nat) (state : nat) (truncs : dict bool) : nat := a.

End ScriptedEnv.

(** [_episode] on the scripted environment, with fresh agents and the
    default [boost_consumption=1, gravity=1]. *)
Abbreviation run_episode linger live_obs fuel :=
  (_episode (env_reset live_obs) (env_step live_obs) (env_agents linger)
     env_state agent_act agent_end car_identifier identifier_agent
     fuel 0%nat (λ _, 0%nat) 1 1).

(** What [_episode] returns, and the [end] calls it made. *)
Definition outcome (linger live_obs : bool) (fuel : nat)
  : option (result (list nat * Z * list (@end_call nat))) :=
  match run_episode linger live_obs fuel with
  | None => None
  | Some (Raised e) => Some (Raised e)
  | Some (Ok st) => Some (Ok (all_states st, total_agent_steps st, end_calls st))
  end.

End Scenario.

(** The three runs of the scenario. *)
Lemma scenario_dropped_at_once :
  Scenario.outcome false false 100 = Some (Ok (seq 0 16, 0, [])).
Proof. vm_compute. reflexivity. Qed.

Lemma scenario_listed_once_more :
  Scenario.outcome true false 100
  = Some (Ok (seq 0 17, 0,
              [("agent-a", 10%nat, [("blue-0", false)]);
               ("agent-b", 15%nat, [("orange-0", false)])])).
Proof. vm_compute. reflexivity. Qed.

Lemma scenario_live_observations :
  Scenario.outcome false true 100 = Some (Raised (KeyError "blue-0")).
Proof. vm_compute. reflexivity. Qed.

Lemma outcome_Ok_inv linger live_obs fuel x :
  Scenario.outcome linger live_obs fuel = Some (Ok x) →
  ∃ st', Scenario.run_episode linger live_obs fuel = Some (Ok st')
         ∧ x = (all_states st', total_agent_steps st', end_calls st').
Proof.
  unfold Scenario.outcome.
  destruct (Scenario.run_episode linger live_obs fuel) as [[st'|e]|];
    intros H; [|discriminate H..].
  injection H as <-. eauto.
Qed.

(** C9.  The scenario on the code.  With an environment that drops a car
    from [env.agents] in the step in which it ends, the episode runs its
    15 steps (16 recorded states) and ends when no car is left, but
    neither agent is ever notified.  With one that still lists the car
    in that step, each agent is notified once, but the loop needs a 16th
    step (17 recorded states) to see the list empty.  And when a step
    returns observations only for the cars that took part in it, the
    loop still asks for the observation of the car that has ended and
    fails with [KeyError]. *)
Theorem episode_partial_termination_scenario :
  Scenario.outcome false false 100 = Some (Ok (seq 0 16, 0, []))
  ∧ Scenario.outcome true false 100
    = Some (Ok (seq 0 17, 0,
                [("agent-a", 10%nat, [("blue-0", false)]);
                 ("agent-b", 15%nat, [("orange-0", false)])]))
  ∧ Scenario.outcome false true 100 = Some (Raised (KeyError "blue-0")).
Proof.
  split; [exact scenario_dropped_at_once|].
  split; [exact scenario_listed_once_more | exact scenario_live_observations].
Qed.

Lemma episode_returns_zero_agent_steps_witness :
  ∃ st', Scenario.run_episode false false 100 = Some (Ok st')
         ∧ total_agent_steps st' = 0.
Proof.
  destruct (outcome_Ok_inv _ _ _ _ scenario_dropped_at_once) as (st' & H & _).
  exists st'. split; [exact H|].
  exact (episode_returns_zero_agent_steps _ _ _ _ _ _ _ _ _ _ _ _ _ _ H).
Defined.

(** * Further properties of worker.py *)

(** ** The sampler only reads *)

Definition read_only (c : command) : bool :=
  match c with
  | GET _ | LRANGE _ _ _ | LLEN _ => true
  | _ => false
  end.

Lemma exec_read_only (c : command) (s : store) :
  read_only c = true → (exec c s).2 = s.
Proof.
  destruct c; try discriminate; intros _; cbn [exec];
    destruct (s !! key) as [[]|]; reflexivity.
Qed.

(** Programs all of whose calls, whatever the replies, only read. *)
Inductive reads_only {A} : prog A → Prop :=
| reads_only_Ret a : reads_only (Ret a)
| reads_only_Raise e : reads_only (Raise e)
| reads_only_Call c k :
    read_only c = true → (∀ r, reads_only (k r)) → reads_only (Call c k).

Lemma reads_only_run {A} (p : prog A) :
  reads_only p →
  ∀ s, (run p s).2 = s ∧ Forall (λ c, read_only c = true) (trace p s).
Proof.
  induction 1 as [a|e|c k Hc Hk IH]; intros s; cbn [run trace];
    [split; [reflexivity|constructor]..|].
  pose proof (exec_read_only c s Hc) as Hs.
  destruct (exec c s) as [r s']. cbn [snd] in Hs. subst s'.
  destruct (IH r s) as [H1 H2]. split; [exact H1|]. constructor; assumption.
Qed.

Lemma reads_only_bind {A B} (p : prog A) (f : A → prog B) :
  reads_only p → (∀ a, reads_only (f a)) → reads_only (p ≫= f).
Proof.
  intros Hp Hf. induction Hp as [a|e|c k Hc Hk IH]; cbn [mbind prog_bind bind].
  - apply Hf.
  - constructor.
  - constructor; [exact Hc|]. intros r. apply IH.
Qed.

Lemma reads_only_lift {A} (r : result A) : reads_only (lift r).
Proof. destruct r; constructor. Qed.

Lemma reads_only_redis_call (c : command) :
  read_only c = true → reads_only (redis_call c).
Proof. intros Hc. constructor; [exact Hc|]. intros []; constructor. Qed.

Lemma reads_only_as_multi (r : reply) : reads_only (as_multi r).
Proof. destruct r; constructor. Qed.

Lemma reads_only_msgpack_loads (r : reply) : reads_only (msgpack_loads r).
Proof. destruct r; constructor. Qed.

Lemma get_opponent_index_reads_only (g : globals) (u : R) :
  reads_only (get_opponent_index g u).
Proof.
  unfold get_opponent_index, key_global.
  apply reads_only_bind; [apply reads_only_lift|]. intros q.
  apply reads_only_bind; [apply reads_only_redis_call; reflexivity|]. intros r.
  apply reads_only_bind; [apply reads_only_as_multi|]. intros vs.
  apply reads_only_bind; [apply reads_only_lift|]. intros qualities.
  apply reads_only_bind; [apply reads_only_lift|]. intros probs.
  destruct (probs !! _); constructor.
Qed.

Lemma seats_loop_reads_only (g : globals) (E : entropy) (current : rstr)
    (p adjusted : R) (count : nat) :
  ∀ ns agents, reads_only (seats_loop g E current p adjusted count ns agents).
Proof.
  induction count as [|count IH]; intros ns agents; cbn [seats_loop].
  - constructor.
  - destruct (Rlt_dec _ _).
    + unfold key_global.
      apply reads_only_bind; [apply reads_only_lift|]. intros v. apply IH.
    + apply reads_only_bind; [apply get_opponent_index_reads_only|]. intros ip.
      apply reads_only_bind; [apply reads_only_lift|]. intros t.
      apply reads_only_bind; [apply reads_only_lift|]. intros version.
      apply reads_only_bind; [apply reads_only_redis_call; reflexivity|]. intros r.
      apply reads_only_bind; [apply reads_only_msgpack_loads|]. intros a.
      apply IH.
Qed.

Lemma worker_matchup_reads_only (g : globals) (E : entropy) (n_agents : Z) (p : R) :
  reads_only (worker_matchup g E n_agents p).
Proof.
  unfold worker_matchup, key_global.
  apply reads_only_bind; [apply reads_only_lift|]. intros k.
  apply reads_only_bind; [apply reads_only_redis_call; reflexivity|]. intros r.
  apply reads_only_bind; [apply reads_only_msgpack_loads|]. intros current.
  apply reads_only_bind; [apply reads_only_lift|]. intros version.
  apply reads_only_bind; [|intros agents; constructor].
  destruct (1 <? n_agents).
  - apply reads_only_bind; [apply seats_loop_reads_only|]. intros x. constructor.
  - constructor.
Qed.

(** X1.  Building the matchup never writes: whatever the module
    namespace, the random draws, the seat count and the outcome
    (a matchup or an exception), the store is left as it was, and every
    command sent is a GET, an LRANGE or an LLEN. *)
Theorem worker_matchup_never_writes :
  ∀ (g : globals) (E : entropy) (n_agents : Z) (p : R) (s : store),
    (run (worker_matchup g E n_agents p) s).2 = s
    ∧ Forall (λ c, read_only c = true) (trace (worker_matchup g E n_agents p) s).
Proof.
  intros g E n_agents p s.
  apply reads_only_run, worker_matchup_reads_only.
Qed.

(** X2.  Without a published model the worker fails at once: when the
    key [model-latest] is missing, [msgpack.loads(None)] raises
    [TypeError] after the single GET, before any random draw. *)
Theorem worker_matchup_without_latest (E : entropy) (n_agents : Z) (p : R) (s : store) :
  s !! "model-latest" = None →
  run (worker_matchup module_globals E n_agents p) s = (Raised TypeError, s)
  ∧ trace (worker_matchup module_globals E n_agents p) s = [GET "model-latest"].
Proof.
  intros Hs. unfold worker_matchup. rewrite !key_global_MODEL_LATEST.
  prog_simpl. cbn [exec]. rewrite Hs. split; reflexivity.
Qed.

Lemma worker_matchup_without_latest_witness :
  run (worker_matchup module_globals late_draws 3 current_version_prob) ∅
  = (Raised TypeError, ∅).
Proof.
  exact (proj1 (worker_matchup_without_latest late_draws 3 current_version_prob ∅
                  (lookup_empty _))).
Defined.

(** ** The shape of a matchup *)

Lemma run_bind {A B} (p : prog A) (f : A → prog B) (s : store) :
  run (p ≫= f) s
  = match run p s with
    | (Ok a, s') => run (f a) s'
    | (Raised e, s') => (Raised e, s')
    end.
Proof.
  revert s. induction p as [a|e|c k IH]; intros s; cbn [mbind prog_bind bind run].
  - reflexivity.
  - reflexivity.
  - destruct (exec c s) as [r s']. apply IH.
Qed.

Lemma run_bind_Ok {A B} (p : prog A) (f : A → prog B) (s s' : store) (b : B) :
  run (p ≫= f) s = (Ok b, s') →
  ∃ a s1, run p s = (Ok a, s1) ∧ run (f a) s1 = (Ok b, s').
Proof.
  rewrite run_bind. destruct (run p s) as [[a|e] s1]; [eauto|discriminate].
Qed.

Lemma run_bind_step {A B} (p : prog A) (f : A → prog B) (s s1 : store) (a : A) :
  run p s = (Ok a, s1) → run (p ≫= f) s = run (f a) s1.
Proof. intros H. rewrite run_bind, H. reflexivity. Qed.

Lemma rmapM_py_float_Ok (vs : list rstr) (qs : list R) :
  rmapM py_float vs = Ok qs → vs = map Num qs.
Proof.
  revert qs. induction vs as [|v vs IH]; intros qs H; cbn in H.
  - injection H as <-. reflexivity.
  - destruct v as [b|x]; [discriminate H|]. cbn in H.
    destruct (rmapM py_float vs) as [qs'|]; [|discriminate H].
    cbn in H. injection H as <-. cbn. f_equal. apply IH. reflexivity.
Qed.

(** A successful [get_opponent_index] has read a non-empty list of
    scores and returns a position of its softmax with the probability
    found there. *)
Lemma get_opponent_index_Ok (s s' : store) (u : R) (i : nat) (pr : R) :
  run (get_opponent_index module_globals u) s = (Ok (i, pr), s') →
  s' = s
  ∧ ∃ qs d, s !! "qualities" = Some (VList (map Num qs))
            ∧ _softmax qs = Ok d ∧ d !! i = Some pr ∧ (0 < pr)%R.
Proof.
  unfold get_opponent_index. rewrite key_global_QUALITIES.
  prog_simpl. cbn [exec].
  destruct (s !! "qualities") as [[v|l]|] eqn:Hs; prog_simpl;
    [discriminate| |discriminate].
  rewrite lrange_all.
  destruct (rmapM py_float l) as [qs|] eqn:Hq; prog_simpl; [|discriminate].
  apply rmapM_py_float_Ok in Hq. subst l.
  destruct (_softmax qs) as [d|] eqn:Hd; prog_simpl; [|discriminate].
  destruct (d !! random_choice d u) as [pr'|] eqn:Hpr; cbn [run]; [|discriminate].
  intros H. injection H as <- <- <-. split; [reflexivity|].
  exists qs, d. repeat split; try assumption.
  destruct qs as [|q qs]; [discriminate Hd|].
  destruct (softmax_distribution (q :: qs)) as (d' & Hd' & _ & Hpos & _);
    [discriminate|].
  rewrite Hd in Hd'. injection Hd' as <-.
  eapply Forall_lookup_1 in Hpos; [exact Hpos|exact Hpr].
Qed.

Lemma string_app_empty_r (s : string) : s +:+ "" = s.
Proof.
  induction s as [|c s IH]; [reflexivity|].
  change (String c s +:+ "") with (String c (s +:+ "")). f_equal. exact IH.
Qed.

Lemma load_global_MODEL_N :
  load_global module_globals "MODEL_N" = Ok (PyStr "model-{}").
Proof. vm_compute. reflexivity. Qed.

(** [MODEL_N.format(index)] *)
Lemma py_format_MODEL_N (i : nat) :
  py_format (PyStr "model-{}") i = Ok ("model-" +:+ pretty i).
Proof.
  cbn [mbind mret result_bind result_ret rbind py_format format_fields].
  rewrite string_app_empty_r. reflexivity.
Qed.

(** A seat other than the reserved one: the latest policy with the
    target probability, or the snapshot stored under [model-i] with a
    positive selection probability. *)
Definition sampled_seat (s : store) (latest : rstr) (p : R) (x : seat) : Prop :=
  x = (latest, "model-latest", Some p)
  ∨ ∃ (i : nat) (blob : rstr) (pr : R),
      x = (blob, "model-" +:+ pretty i, Some pr)
      ∧ s !! ("model-" +:+ pretty i) = Some (VString blob)
      ∧ (0 < pr)%R.

Lemma seats_loop_Ok (E : entropy) (latest : rstr) (p adjusted : R) (s : store)
    (count : nat) :
  ∀ ns agents agents' ns' s',
    run (seats_loop module_globals E latest p adjusted count ns agents) s
      = (Ok (agents', ns'), s') →
    s' = s
    ∧ ∃ new, agents' = agents ++ new ∧ length new = count
             ∧ Forall (sampled_seat s latest p) new.
Proof.
  induction count as [|count IH]; intros ns agents agents' ns' s' H;
    cbn [seats_loop] in H.
  - cbn [run] in H. injection H as <- <- <-. split; [reflexivity|].
    exists []. rewrite app_nil_r. repeat split. constructor.
  - destruct (Rlt_dec _ _).
    + rewrite key_global_MODEL_LATEST in H. prog_simpl_in H.
      apply IH in H as (-> & new & -> & Hlen & Hnew). split; [reflexivity|].
      exists ((latest, "model-latest", Some p) :: new).
      rewrite <- app_assoc. repeat split; [cbn; lia|].
      constructor; [left; reflexivity|exact Hnew].
    + apply run_bind_Ok in H as ([i pr] & s1 & Hg & H).
      apply get_opponent_index_Ok in Hg as (-> & qs & d & _ & _ & _ & Hpr).
      cbn [fst snd] in H.
      rewrite load_global_MODEL_N in H. prog_simpl_in H.
      rewrite py_format_MODEL_N in H. prog_simpl_in H. cbn [exec] in H.
      destruct (s !! ("model-" +:+ pretty i)) as [[blob|l]|] eqn:Hk;
        prog_simpl_in H; [|discriminate H..].
      apply IH in H as (-> & new & -> & Hlen & Hnew). split; [reflexivity|].
      exists ((blob, "model-" +:+ pretty i, Some pr) :: new).
      rewrite <- app_assoc. repeat split; [cbn; lia|].
      constructor; [|exact Hnew].
      right. exists i, blob, pr. auto.
Qed.

Lemma insert_head_Permutation {A} (t : list A) (k : nat) (b h : A) :
  t !! k = Some b → b :: <[k:=h]> t ≡ₚ h :: t.
Proof.
  revert k. induction t as [|c t IH]; intros k Hk; [discriminate Hk|].
  destruct k as [|k]; cbn in *.
  - injection Hk as ->. apply perm_swap.
  - rewrite perm_swap, (IH k Hk). apply perm_swap.
Qed.

Lemma swap_Permutation {A} (x : list A) (i j : nat) : swap x i j ≡ₚ x.
Proof.
  unfold swap.
  destruct (x !! i) as [a|] eqn:Hi; [|reflexivity].
  destruct (x !! j) as [b|] eqn:Hj; [|reflexivity].
  revert i j Hi Hj. induction x as [|h t IH]; intros i j Hi Hj; [discriminate Hi|].
  destruct i as [|i], j as [|j]; cbn in *.
  - injection Hi as ->. injection Hj as ->. reflexivity.
  - injection Hi as ->. apply insert_head_Permutation. exact Hj.
  - injection Hj as ->. apply insert_head_Permutation. exact Hi.
  - rewrite (IH i j Hi Hj). reflexivity.
Qed.

Lemma shuffle_Permutation {A} (E : entropy) (x : list A) : shuffle E x ≡ₚ x.
Proof.
  unfold shuffle. generalize (length x - 1)%nat as i. generalize 0%nat as ni.
  intros ni i. revert ni x. induction i as [|i IH]; intros ni x; cbn [shuffle_down].
  - reflexivity.
  - rewrite IH. apply swap_Permutation.
Qed.

(** X3.  A matchup that is built holds the reserved seat for the latest
    policy and [n_agents - 1] further seats (none when [n_agents] is at
    most 1), in some order: every further seat is either the latest
    policy with the target probability or a snapshot read from the key
    [model-i], with a positive selection probability. *)
Theorem worker_matchup_shape (E : entropy) (n_agents : Z) (p : R)
    (s s' : store) (agents : list seat) :
  run (worker_matchup module_globals E n_agents p) s = (Ok agents, s') →
  ∃ latest sampled,
    s !! "model-latest" = Some (VString latest)
    ∧ agents ≡ₚ (latest, "model-latest", None) :: sampled
    ∧ length sampled = Z.to_nat (n_agents - 1)
    ∧ Forall (sampled_seat s latest p) sampled.
Proof.
  unfold worker_matchup. rewrite !key_global_MODEL_LATEST.
  prog_simpl. cbn [exec].
  destruct (s !! "model-latest") as [[latest|l]|] eqn:Hl; prog_simpl;
    [|discriminate..].
  intros H. exists latest.
  destruct (Z.ltb_spec 1 n_agents) as [Hn|Hn].
  - apply run_bind_Ok in H as (agents1 & s1 & H & Hret).
    apply run_bind_Ok in H as ([agents' ns'] & s2 & Hloop & Hfst).
    apply seats_loop_Ok in Hloop as (-> & new & -> & Hlen & Hnew).
    cbn [run mret prog_ret fst] in Hfst, Hret.
    injection Hfst as <- <-. injection Hret as <- <-.
    exists new. split; [reflexivity|]. split; [apply shuffle_Permutation|].
    split; assumption.
  - prog_simpl_in H. injection H as <- <-.
    exists []. split; [reflexivity|]. split; [apply shuffle_Permutation|].
    split; [|constructor]. cbn. lia.
Qed.

Definition early_draws : entropy :=
  {| sample := λ _, 0%R; interval := λ _, 0%nat |}.

Lemma two_seat_matchup_run :
  ∃ agents,
    run (worker_matchup module_globals early_draws 2 current_version_prob)
        store_latest_only
    = (Ok agents, store_latest_only).
Proof.
  unfold worker_matchup. rewrite !key_global_MODEL_LATEST.
  assert (Hl : store_latest_only !! "model-latest" = Some (VString (Bytes "latest")))
    by apply lookup_insert_eq.
  prog_simpl. cbn [exec]. rewrite Hl. prog_simpl.
  change (1 <? 2) with true. change (Z.to_nat (2 - 1)) with 1%nat.
  destruct (seats_loop_all_current early_draws (Bytes "latest")
              current_version_prob (adjusted_prob current_version_prob 2)
              1 0 [(Bytes "latest", "model-latest", None)] store_latest_only)
    as (agents' & Hrun & _).
  { intros i. unfold adjusted_prob, current_version_prob. cbn [sample early_draws]. lra. }
  eexists. etransitivity.
  { eapply run_bind_step. etransitivity.
    - eapply run_bind_step. exact Hrun.
    - reflexivity. }
  reflexivity.
Qed.

Lemma worker_matchup_shape_witness :
  ∃ agents latest sampled,
    run (worker_matchup module_globals early_draws 2 current_version_prob)
        store_latest_only
    = (Ok agents, store_latest_only)
    ∧ agents ≡ₚ (latest, "model-latest", None) :: sampled
    ∧ length sampled = 1%nat.
Proof.
  destruct two_seat_matchup_run as [agents Hrun].
  destruct (worker_matchup_shape _ _ _ _ _ _ Hrun)
    as (latest & sampled & _ & Hperm & Hlen & _).
  exists agents, latest, sampled. auto.
Defined.

(** ** A worker iteration *)

Lemma key_global_ROLLOUTS :
  key_global module_globals "ROLLOUTS" = Ret "rollout".
Proof. vm_compute. reflexivity. Qed.

Lemma worker_matchup_store (E : entropy) (n_agents : Z) (p : R) (s : store) :
  (run (worker_matchup module_globals E n_agents p) s).2 = s.
Proof. apply reads_only_run, worker_matchup_reads_only. Qed.

Lemma push_rollouts_frame (dumps : list rstr) (s : store) (k : string) :
  k ≠ "rollout" →
  (run (push_rollouts module_globals dumps) s).2 !! k = s !! k.
Proof.
  intros Hk. unfold push_rollouts. rewrite key_global_ROLLOUTS.
  prog_simpl. cbn [exec].
  destruct dumps as [|d dumps]; [reflexivity|].
  destruct (s !! "rollout") as [[v|l]|]; prog_simpl; cbn [snd];
    try reflexivity; apply lookup_insert_ne; congruence.
Qed.

(** X4.  A worker iteration changes nothing in the store but the
    rollout queue, whatever its outcome: every key other than [rollout]
    holds what it held before. *)
Theorem worker_iteration_touches_only_rollout :
  ∀ (E : entropy) (n_agents : Z) (p : R) (episode : list seat → list rstr)
    (s : store) (k : string),
    k ≠ "rollout" →
    (run (worker_iteration module_globals E n_agents p episode) s).2 !! k = s !! k.
Proof.
  intros E n_agents p episode s k Hk. unfold worker_iteration.
  rewrite run_bind.
  pose proof (worker_matchup_store E n_agents p s) as Hs.
  destruct (run (worker_matchup module_globals E n_agents p) s) as [[agents|e] s1].
  - cbn [snd] in Hs. subst s1. apply push_rollouts_frame. exact Hk.
  - cbn [snd] in Hs. subst s1. reflexivity.
Qed.

Lemma worker_iteration_touches_only_rollout_witness :
  (run (worker_iteration module_globals early_draws 2 current_version_prob
          (λ _, [Bytes "rollout-a"])) store_latest_only).2 !! "model-latest"
  = store_latest_only !! "model-latest".
Proof. apply worker_iteration_touches_only_rollout. discriminate. Defined.

(** X5.  When the matchup is built and the episode yields at least one
    rollout, the iteration appends the serialised rollouts, in order,
    behind what the queue held, and returns. *)
Theorem worker_iteration_appends_rollouts (E : entropy) (n_agents : Z) (p : R)
    (episode : list seat → list rstr) (s s1 : store)
    (agents : list seat) (queue : list rstr) :
  run (worker_matchup module_globals E n_agents p) s = (Ok agents, s1) →
  get_list s "rollout" = Some queue →
  episode agents ≠ [] →
  run (worker_iteration module_globals E n_agents p episode) s
  = (Ok (), <["rollout" := VList (queue ++ episode agents)]> s).
Proof.
  intros Hm Hq Hne. unfold worker_iteration.
  pose proof (worker_matchup_store E n_agents p s) as Hs.
  rewrite Hm in Hs. cbn [snd] in Hs. subst s1.
  rewrite (run_bind_step _ _ _ _ _ Hm).
  unfold push_rollouts. rewrite key_global_ROLLOUTS. prog_simpl. cbn [exec].
  destruct (episode agents) as [|d ds] eqn:He; [congruence|].
  unfold get_list in Hq.
  destruct (s !! "rollout") as [[v|l]|]; try discriminate Hq;
    injection Hq as <-; reflexivity.
Qed.

Lemma worker_iteration_appends_rollouts_witness :
  ∃ agents,
    run (worker_iteration module_globals early_draws 2 current_version_prob
           (λ agents, [Bytes "rollout-a"; Bytes "rollout-b"]))
        store_latest_only
    = (Ok (), <["rollout" := VList ([] ++ [Bytes "rollout-a"; Bytes "rollout-b"])]>
                store_latest_only)
    ∧ run (worker_matchup module_globals early_draws 2 current_version_prob)
          store_latest_only
      = (Ok agents, store_latest_only).
Proof.
  destruct two_seat_matchup_run as [agents Hrun].
  exists agents. split; [|exact Hrun].
  apply (worker_iteration_appends_rollouts _ _ _ _ _ _ agents [] Hrun).
  - unfold get_list, store_latest_only.
    rewrite lookup_insert_ne by discriminate. rewrite lookup_empty. reflexivity.
  - discriminate.
Defined.

(** X6.  An episode that yields no rollout makes the iteration fail:
    [rpush] is then sent without a value, Redis rejects the command and
    redis-py raises [ResponseError]; the queue is not touched. *)
Theorem worker_iteration_without_rollouts (E : entropy) (n_agents : Z) (p : R)
    (episode : list seat → list rstr) (s s1 : store) (agents : list seat) :
  run (worker_matchup module_globals E n_agents p) s = (Ok agents, s1) →
  episode agents = [] →
  ∃ msg, run (worker_iteration module_globals E n_agents p episode) s
         = (Raised (ResponseError msg), s).
Proof.
  intros Hm He. unfold worker_iteration.
  pose proof (worker_matchup_store E n_agents p s) as Hs.
  rewrite Hm in Hs. cbn [snd] in Hs. subst s1.
  rewrite (run_bind_step _ _ _ _ _ Hm).
  unfold push_rollouts. rewrite key_global_ROLLOUTS. prog_simpl. cbn [exec].
  rewrite He. eexists. reflexivity.
Qed.

Lemma worker_iteration_without_rollouts_witness :
  ∃ msg,
    run (worker_iteration module_globals early_draws 2 current_version_prob (λ _, []))
        store_latest_only
    = (Raised (ResponseError msg), store_latest_only).
Proof.
  destruct two_seat_matchup_run as [agents Hrun].
  exact (worker_iteration_without_rollouts _ _ _ (λ _, []) _ _ agents Hrun eq_refl).
Defined.

(** ** More on the selection distribution *)

Local Open Scope R_scope.

Lemma softmax_lookup (q d : list R) (i : nat) (qi di : R) :
  _softmax q = Ok d → q !! i = Some qi → d !! i = Some di →
  ∃ m S, 0 < S ∧ di = exp (qi - m) / S
         ∧ ∀ j qj dj, q !! j = Some qj → d !! j = Some dj → dj = exp (qj - m) / S.
Proof.
  intros Hd Hqi Hdi. destruct q as [|a l]; [discriminate Hd|].
  unfold _softmax in Hd.
  cbn [np_max mbind mret result_bind result_ret rbind] in Hd.
  set (m := fold_left Rmax l a) in Hd.
  set (e_x := map (λ v, exp (v - m)) (a :: l)) in Hd.
  injection Hd as <-.
  assert (Hsum : 0 < np_sum e_x)
    by (apply np_sum_pos; [discriminate|apply exp_map_pos]).
  assert (Hent : ∀ j qj dj, (a :: l) !! j = Some qj →
                   map (λ e, e / np_sum e_x) e_x !! j = Some dj →
                   dj = exp (qj - m) / np_sum e_x).
  { intros j qj dj Hq Hj.
    assert (He : e_x !! j = Some (exp (qj - m))).
    { unfold e_x. change (map ?f ?x) with (f <$> x).
      rewrite list_lookup_fmap, Hq. reflexivity. }
    change (map ?f ?x) with (f <$> x) in Hj.
    rewrite list_lookup_fmap, He in Hj. injection Hj as <-. reflexivity. }
  exists m, (np_sum e_x). split; [exact Hsum|]. split; [|exact Hent].
  eapply Hent; eassumption.
Qed.

(** X7.  The distribution follows the qualities: a snapshot whose
    quality is at least that of another one is at least as likely to be
    picked, and strictly more likely when its quality is strictly
    higher. *)
Theorem softmax_monotone (q d : list R) (i j : nat) (qi qj di dj : R) :
  _softmax q = Ok d →
  q !! i = Some qi → q !! j = Some qj →
  d !! i = Some di → d !! j = Some dj →
  (qi <= qj → di <= dj) ∧ (qi < qj → di < dj).
Proof.
  intros Hd Hqi Hqj Hdi Hdj.
  destruct (softmax_lookup q d i qi di Hd Hqi Hdi) as (m & S & HS & -> & Hall).
  rewrite (Hall j qj dj Hqj Hdj).
  assert (HinvS : 0 < / S) by (apply Rinv_0_lt_compat; exact HS).
  unfold Rdiv. split; intros Hle.
  - apply Rmult_le_compat_r; [lra|].
    destruct Hle as [Hlt|Heq].
    + left. apply exp_increasing. lra.
    + right. f_equal. lra.
  - apply Rmult_lt_compat_r; [exact HinvS|]. apply exp_increasing. lra.
Qed.

Lemma softmax_monotone_witness :
  ∃ d di dj, _softmax [1; 3] = Ok d
             ∧ d !! 0%nat = Some di ∧ d !! 1%nat = Some dj ∧ di < dj.
Proof.
  destruct (softmax_distribution [1; 3]) as (d & Hd & Hlen & _); [discriminate|].
  destruct d as [|di [|dj d]]; try discriminate Hlen.
  exists (di :: dj :: d), di, dj. split; [exact Hd|].
  split; [reflexivity|]. split; [reflexivity|].
  apply (softmax_monotone [1; 3] (di :: dj :: d) 0 1 1 3 di dj Hd
           eq_refl eq_refl eq_refl eq_refl).
  lra.
Defined.

Lemma fold_left_Rmax_replicate (n : nat) (c : R) :
  fold_left Rmax (replicate n c) c = c.
Proof.
  induction n as [|n IH]; cbn [replicate fold_left]; [reflexivity|].
  rewrite Rmax_left by lra. exact IH.
Qed.

Lemma np_sum_replicate (n : nat) (x : R) : np_sum (replicate n x) = INR n * x.
Proof.
  induction n as [|n IH]; [cbn; lra|].
  change (np_sum (replicate (S n) x)) with (x + np_sum (replicate n x)).
  rewrite IH, S_INR. lra.
Qed.

Lemma map_replicate_R (f : R → R) (n : nat) (x : R) :
  map f (replicate n x) = replicate n (f x).
Proof. induction n as [|n IH]; cbn; [|rewrite IH]; reflexivity. Qed.

(** X8.  Equal qualities give the uniform distribution: with [n >= 1]
    snapshots of one and the same quality, each is picked with
    probability [1/n].  This is the state of a pool whose snapshots
    have all been promoted and never updated. *)
Theorem softmax_uniform (n : nat) (c : R) :
  (0 < n)%nat →
  _softmax (replicate n c) = Ok (replicate n (1 / INR n)).
Proof.
  intros Hn. destruct n as [|n]; [lia|].
  unfold _softmax. change (replicate (S n) c) with (c :: replicate n c).
  cbn [np_max mbind mret result_bind result_ret rbind].
  change (c :: replicate n c) with (replicate (S n) c).
  rewrite fold_left_Rmax_replicate.
  rewrite !map_replicate_R, np_sum_replicate.
  replace (c - c) with 0 by lra. rewrite exp_0.
  do 2 f_equal. rewrite Rmult_1_r. reflexivity.
Qed.

Lemma softmax_uniform_witness :
  _softmax (replicate 2 0) = Ok (replicate 2 (1 / INR 2)).
Proof. apply (softmax_uniform 2 0). lia. Defined.

Lemma get_opponent_index_nonempty_pool_witness :
  let s : store := <["qualities" := VList (map Num [1; 3])]> ∅ in
  ∃ i pr d, run (get_opponent_index module_globals (1 / 2)) s = (Ok (i, pr), s)
            ∧ _softmax [1; 3] = Ok d
            ∧ d !! i = Some pr
            ∧ 0 < pr.
Proof.
  intros s.
  apply (get_opponent_index_nonempty_pool s [1; 3] (1 / 2)).
  - apply lookup_insert_eq.
  - discriminate.
  - lra.
Defined.

Local Close Scope R_scope.

(** ** More on quality updates *)

(** The commands of one call, whatever the store holds. *)
Lemma update_opponent_quality_calls (s : store) (l : list rstr)
    (index : Z) (prob rate : R) :
  s !! "qualities" = Some (VList l) →
  (IZR (Z.of_nat (length l)) * prob ≠ 0)%R →
  trace (update_opponent_quality module_globals index prob rate) s
  = [LLEN "qualities";
     EVAL_LINDEX_ADD_LSET "qualities" index
       (rate / (IZR (Z.of_nat (length l)) * prob))%R].
Proof.
  intros Hs Hd. rewrite update_opponent_quality_unfold. prog_simpl.
  cbn [exec]. rewrite Hs. prog_simpl. rewrite (py_div_Ok _ _ Hd). prog_simpl.
  destruct (exec _ s) as [[] ?]; reflexivity.
Qed.

(** X9.  The update is inversely weighted by the selection probability:
    for a positive rate and the same pool, an opponent that was picked
    with the smaller probability receives the larger delta. *)
Theorem rarer_opponent_larger_delta (s : store) (l : list rstr)
    (index : Z) (prob1 prob2 rate : R) :
  s !! "qualities" = Some (VList l) →
  (0 < length l)%nat →
  (0 < prob1 < prob2)%R → (0 < rate)%R →
  ∃ d1 d2,
    trace (update_opponent_quality module_globals index prob1 rate) s
      = [LLEN "qualities"; EVAL_LINDEX_ADD_LSET "qualities" index d1]
    ∧ trace (update_opponent_quality module_globals index prob2 rate) s
      = [LLEN "qualities"; EVAL_LINDEX_ADD_LSET "qualities" index d2]
    ∧ (0 < d2 < d1)%R.
Proof.
  intros Hs Hlen [Hp1 Hp2] Hr.
  pose proof (pool_size_pos l Hlen) as Hn.
  set (n := IZR (Z.of_nat (length l))) in *.
  exists (rate / (n * prob1))%R, (rate / (n * prob2))%R.
  split; [apply update_opponent_quality_calls; [exact Hs|fold n; nra]|].
  split; [apply update_opponent_quality_calls; [exact Hs|fold n; nra]|].
  assert (H1 : (0 < n * prob1)%R) by nra.
  assert (H2 : (n * prob1 < n * prob2)%R) by nra.
  unfold Rdiv. split.
  - apply Rmult_lt_0_compat; [exact Hr|]. apply Rinv_0_lt_compat. lra.
  - apply Rmult_lt_compat_l; [exact Hr|].
    apply Rinv_lt_contravar; [nra|exact H2].
Qed.

Lemma rarer_opponent_larger_delta_witness :
  let s : store := <["qualities" := VList [Num 1%R; Num 3%R]]> ∅ in
  ∃ d1 d2,
    trace (update_opponent_quality module_globals 1 (1 / 4)%R 1%R) s
      = [LLEN "qualities"; EVAL_LINDEX_ADD_LSET "qualities" 1 d1]
    ∧ trace (update_opponent_quality module_globals 1 (1 / 2)%R 1%R) s
      = [LLEN "qualities"; EVAL_LINDEX_ADD_LSET "qualities" 1 d2]
    ∧ (0 < d2 < d1)%R.
Proof.
  intros s.
  apply (rarer_opponent_larger_delta s [Num 1%R; Num 3%R] 1 (1 / 4)%R (1 / 2)%R 1%R).
  - apply lookup_insert_eq.
  - cbn. lia.
  - lra.
  - lra.
Defined.

(** X10.  An index that holds no score (beyond the list, or an entry
    that is not a number) makes the script fail: the call raises
    [ResponseError] and the store is left as it was. *)
Theorem update_opponent_quality_bad_index (s : store) (l : list rstr)
    (index : Z) (prob rate : R) :
  s !! "qualities" = Some (VList l) →
  (0 < length l)%nat → prob ≠ 0%R →
  tonumber (lindex l index) = None →
  ∃ msg, run (update_opponent_quality module_globals index prob rate) s
         = (Raised (ResponseError msg), s).
Proof.
  intros Hs Hlen Hp Hidx.
  assert (Hd : (IZR (Z.of_nat (length l)) * prob ≠ 0)%R).
  { apply Rmult_integral_contrapositive_currified; [|exact Hp].
    apply not_0_IZR. lia. }
  rewrite update_opponent_quality_unfold. prog_simpl.
  cbn [exec]. rewrite Hs. prog_simpl. rewrite (py_div_Ok _ _ Hd). prog_simpl.
  cbn [exec]. rewrite Hs, Hidx. prog_simpl. eexists. reflexivity.
Qed.

Lemma update_opponent_quality_bad_index_witness :
  let s : store := <["qualities" := VList [Num 1%R; Num 3%R]]> ∅ in
  ∃ msg, run (update_opponent_quality module_globals 2 (1 / 2)%R 1%R) s
         = (Raised (ResponseError msg), s).
Proof.
  intros s.
  apply (update_opponent_quality_bad_index s [Num 1%R; Num 3%R] 2 (1 / 2)%R 1%R).
  - apply lookup_insert_eq.
  - cbn. lia.
  - lra.
  - reflexivity.
Defined.

Lemma exec_EVAL_shape (k1 : string) (k2 : Z) (a1 : R) (s : store) :
  (∀ k, k ≠ k1 → (exec (EVAL_LINDEX_ADD_LSET k1 k2 a1) s).2 !! k = s !! k)
  ∧ ∀ l, s !! k1 = Some (VList l) →
      ∃ l', (exec (EVAL_LINDEX_ADD_LSET k1 k2 a1) s).2 !! k1 = Some (VList l')
            ∧ length l' = length l.
Proof.
  cbn [exec]. destruct (s !! k1) as [[v|l]|] eqn:Hs; cbn [snd].
  - split; [reflexivity|]. intros l Hl. discriminate Hl.
  - destruct (tonumber (lindex l k2)) as [q|]; cbn [snd];
      [|split; [reflexivity|intros ? [= <-]; eauto]].
    unfold lset. destruct (norm_index l k2) as [j|]; cbn [snd].
    + split.
      * intros k Hk. apply lookup_insert_ne. congruence.
      * intros l0 [= <-]. rewrite lookup_insert_eq. eexists. split; [reflexivity|].
        apply length_insert.
    + split; [reflexivity|]. intros ? [= <-]. eauto.
  - split; [reflexivity|]. intros l Hl. discriminate Hl.
Qed.

(** X11.  Whatever its arguments and its outcome, a quality update
    touches no key but [qualities] and never changes the number of
    qualities, so it cannot break the alignment of the quality list
    with the snapshots. *)
Theorem update_opponent_quality_keeps_shape :
  ∀ (index : Z) (prob rate : R) (s : store),
    (∀ k, k ≠ "qualities" →
       (run (update_opponent_quality module_globals index prob rate) s).2 !! k
       = s !! k)
    ∧ ∀ l, s !! "qualities" = Some (VList l) →
        ∃ l', (run (update_opponent_quality module_globals index prob rate) s).2
                !! "qualities" = Some (VList l')
              ∧ length l' = length l.
Proof.
  intros index prob rate s.
  rewrite update_opponent_quality_unfold. prog_simpl.
  assert (Hllen : (exec (LLEN "qualities") s).2 = s)
    by (apply exec_read_only; reflexivity).
  destruct (exec (LLEN "qualities") s) as [r s0]. cbn [snd] in Hllen. subst s0.
  assert (Hkeep : (∀ k, k ≠ "qualities" → s !! k = s !! k)
                  ∧ ∀ l, s !! "qualities" = Some (VList l) →
                      ∃ l', s !! "qualities" = Some (VList l')
                            ∧ length l' = length l) by eauto.
  destruct r; prog_simpl; cbn [snd]; try exact Hkeep.
  destruct (py_div rate (IZR n * prob)) as [delta|]; prog_simpl; cbn [snd];
    try exact Hkeep.
  pose proof (exec_EVAL_shape "qualities" index delta s) as Hshape.
  destruct (exec (EVAL_LINDEX_ADD_LSET "qualities" index delta) s) as [r s1].
  cbn [snd] in Hshape.
  destruct r; prog_simpl; cbn [snd]; exact Hshape.
Qed.

(** ** Concurrent updates of any indices *)

(** The position that a Redis index denotes in a list of [n] entries. *)
Definition slot (n : nat) (i : Z) : option nat := norm_index (replicate n ()) i.

Lemma norm_index_slot {A} (l : list A) (i : Z) :
  norm_index l i = slot (length l) i.
Proof. unfold slot, norm_index. rewrite length_replicate. reflexivity. Qed.

Section ConcurrentSlots.
Variables (n k : nat).

(** A caller is the triple [(index, prob, rate)] it passes. *)
Definition indexed_caller : Type := Z * R * R.

Definition sent_delta (c : indexed_caller) : R :=
  (c.2 / (IZR (Z.of_nat n) * c.1.2))%R.

(** What the call of [c] adds to the score at position [k]. *)
Definition contribution (c : indexed_caller) : R :=
  if decide (slot n c.1.1 = Some k) then sent_delta c else 0%R.

Definition call_start (c : indexed_caller) : prog unit :=
  update_opponent_quality module_globals c.1.1 c.1.2 c.2.

Definition call_script (c : indexed_caller) : prog unit :=
  redis_call (EVAL_LINDEX_ADD_LSET "qualities" c.1.1 (sent_delta c));; mret ().

Inductive progress (c : indexed_caller) : prog unit → R → Prop :=
| progress_start : progress c (call_start c) 0
| progress_script : progress c (call_script c) 0
| progress_returned : is_Some (slot n c.1.1) → progress c (Ret ()) (contribution c)
| progress_failed msg :
    slot n c.1.1 = None → progress c (Raise (ResponseError msg)) 0.

Inductive all_progress : list indexed_caller → list (prog unit) → R → Prop :=
| all_progress_nil : all_progress [] [] 0
| all_progress_cons c cs t ts a total :
    progress c t a → all_progress cs ts total →
    all_progress (c :: cs) (t :: ts) (a + total).

Fixpoint sum_contributions (cs : list indexed_caller) : R :=
  match cs with
  | [] => 0
  | c :: cs' => contribution c + sum_contributions cs'
  end.

Lemma all_progress_start cs : all_progress cs (map call_start cs) 0.
Proof.
  induction cs as [|c cs IH]; cbn; [constructor|].
  replace 0%R with (0 + 0)%R by lra. constructor; [constructor|exact IH].
Qed.

Lemma contribution_no_slot c : slot n c.1.1 = None → contribution c = 0%R.
Proof. intros H. unfold contribution. rewrite H. destruct (decide _); [discriminate|reflexivity]. Qed.

Lemma all_progress_finished cs ts total :
  all_progress cs ts total → Forall finished ts → total = sum_contributions cs.
Proof.
  induction 1 as [|c cs t ts a total Hp Hps IH]; intros Hfin; [reflexivity|].
  inversion Hfin as [|? ? Ht Hts]; subst. rewrite (IH Hts).
  destruct Hp; cbn [sum_contributions].
  - unfold call_start in Ht. rewrite update_opponent_quality_unfold in Ht. destruct Ht.
  - destruct Ht.
  - reflexivity.
  - rewrite contribution_no_slot by assumption. reflexivity.
Qed.

Hypothesis Hn : (0 < n)%nat.

Lemma progress_step c t a cmd cont :
  c.1.2 ≠ 0%R → progress c t a → t = Call cmd cont →
  a = 0%R
  ∧ ((cmd = LLEN "qualities" ∧ progress c (cont (RInt (Z.of_nat n))) 0)
     ∨ (cmd = EVAL_LINDEX_ADD_LSET "qualities" c.1.1 (sent_delta c)
        ∧ (is_Some (slot n c.1.1) → progress c (cont RStatusOk) (contribution c))
        ∧ (∀ msg, slot n c.1.1 = None → progress c (cont (RError msg)) 0))).
Proof.
  intros Hp Hst Ht. destruct Hst; try discriminate Ht.
  - split; [reflexivity|]. left. unfold call_start in Ht.
    rewrite update_opponent_quality_unfold in Ht.
    injection Ht as <- <-. split; [reflexivity|].
    prog_simpl. rewrite py_div_Ok.
    + apply progress_script.
    + apply Rmult_integral_contrapositive_currified; [|exact Hp].
      apply not_0_IZR. lia.
  - split; [reflexivity|]. right. injection Ht as <- <-.
    split; [reflexivity|]. split.
    + intros Hs. apply progress_returned. exact Hs.
    + intros msg Hs. apply progress_failed. exact Hs.
Qed.

Lemma all_progress_step cs ts total i cmd cont :
  Forall (λ c : indexed_caller, c.1.2 ≠ 0%R) cs →
  all_progress cs ts total → ts !! i = Some (Call cmd cont) →
  (cmd = LLEN "qualities"
   ∧ all_progress cs (<[i := cont (RInt (Z.of_nat n))]> ts) total)
  ∨ (∃ c, cmd = EVAL_LINDEX_ADD_LSET "qualities" c.1.1 (sent_delta c)
          ∧ (is_Some (slot n c.1.1) →
             all_progress cs (<[i := cont RStatusOk]> ts) (total + contribution c))
          ∧ (∀ msg, slot n c.1.1 = None →
             all_progress cs (<[i := cont (RError msg)]> ts) total)).
Proof.
  intros Hps Hsts. revert i.
  induction Hsts as [|c cs t ts a total Hst Hsts IH]; intros i Hi; [discriminate Hi|].
  inversion Hps as [|? ? Hp Hps']; subst.
  destruct i as [|i]; cbn in Hi.
  - injection Hi as ->.
    destruct (progress_step c _ a cmd cont Hp Hst eq_refl)
      as (-> & [(-> & Hst') | (-> & Hok & Hfail)]).
    + left. split; [reflexivity|]. cbn. constructor; assumption.
    + right. exists c. split; [reflexivity|]. split.
      * intros Hs. cbn.
        replace (0 + total + contribution c)%R with (contribution c + total)%R by lra.
        constructor; [apply Hok; exact Hs|exact Hsts].
      * intros msg Hs. cbn. constructor; [apply Hfail; exact Hs|exact Hsts].
  - destruct (IH Hps' i Hi) as [[-> H'] | (c' & -> & Hok & Hfail)].
    + left. split; [reflexivity|]. cbn. constructor; assumption.
    + right. exists c'. split; [reflexivity|]. split.
      * intros Hs. cbn.
        replace (a + total + contribution c')%R
          with (a + (total + contribution c'))%R by lra.
        constructor; [exact Hst|apply Hok; exact Hs].
      * intros msg Hs. cbn. constructor; [exact Hst|apply Hfail; exact Hs].
Qed.

(** The script on a list of numbers. *)
Lemma exec_EVAL_numbers (s : store) (cur : list R) (c : indexed_caller) :
  s !! "qualities" = Some (VList (map Num cur)) → length cur = n →
  match slot n c.1.1 with
  | Some j =>
      ∃ q, cur !! j = Some q
           ∧ exec (EVAL_LINDEX_ADD_LSET "qualities" c.1.1 (sent_delta c)) s
             = (RStatusOk,
                <["qualities" := VList (map Num (<[j := (q + sent_delta c)%R]> cur))]> s)
  | None =>
      ∃ msg, exec (EVAL_LINDEX_ADD_LSET "qualities" c.1.1 (sent_delta c)) s
             = (RError msg, s)
  end.
Proof.
  intros Hs Hlen. cbn [exec]. rewrite Hs. unfold lindex, lset.
  rewrite (norm_index_slot (map Num cur)), length_map, Hlen.
  destruct (slot n c.1.1) as [j|] eqn:Hj.
  - assert (Hlt : (j < length cur)%nat).
    { rewrite Hlen. unfold slot in Hj. apply norm_index_lt in Hj.
      rewrite length_replicate in Hj. exact Hj. }
    destruct (lookup_lt_is_Some_2 cur j Hlt) as [q Hq].
    exists q. split; [exact Hq|].
    change (map Num cur) with (Num <$> cur).
    rewrite list_lookup_fmap, Hq. cbn [fmap option_fmap option_map tonumber].
    rewrite list_fmap_insert. reflexivity.
  - cbn [tonumber]. eexists. reflexivity.
Qed.

Lemma slot_schedule_invariant (cs : list indexed_caller) (q0 : R) (sched : list nat) :
  Forall (λ c : indexed_caller, c.1.2 ≠ 0%R) cs →
  ∀ ts (s : store) cur total ts' s',
    all_progress cs ts total →
    s !! "qualities" = Some (VList (map Num cur)) → length cur = n →
    cur !! k = Some (q0 + total)%R →
    sys_run sched (ts, s) = Some (ts', s') →
    ∃ cur' total',
      all_progress cs ts' total'
      ∧ s' !! "qualities" = Some (VList (map Num cur')) ∧ length cur' = n
      ∧ cur' !! k = Some (q0 + total')%R.
Proof.
  intros Hps. induction sched as [|i sched IH];
    intros ts s cur total ts' s' Hsts Hs Hlen Hk Hrun.
  - injection Hrun as <- <-. eauto 10.
  - cbn [sys_run] in Hrun. unfold sys_step in Hrun. cbn [fst snd] in Hrun.
    destruct (ts !! i) as [[| |cmd cont]|] eqn:Hi; try discriminate Hrun.
    destruct (all_progress_step cs ts total i cmd cont Hps Hsts Hi)
      as [[-> Hsts'] | (c & -> & Hok & Hfail)].
    + cbn [exec] in Hrun. rewrite Hs, length_map, Hlen in Hrun.
      eapply (IH _ _ cur total);
        [exact Hsts'|exact Hs|exact Hlen|exact Hk|exact Hrun].
    + pose proof (exec_EVAL_numbers s cur c Hs Hlen) as Hex.
      destruct (slot n c.1.1) as [j|] eqn:Hj.
      * destruct Hex as (q & Hq & Hex). rewrite Hex in Hrun.
        eapply (IH _ _ (<[j := (q + sent_delta c)%R]> cur) (total + contribution c)%R);
          [apply Hok; eauto|apply lookup_insert_eq|rewrite length_insert; exact Hlen
          | |exact Hrun].
        unfold contribution. rewrite Hj.
        destruct (decide (Some j = Some k)) as [[= ->]|Hne].
        -- rewrite list_lookup_insert_eq by (eapply lookup_lt_Some, Hk).
           rewrite Hk in Hq. injection Hq as <-. f_equal. lra.
        -- rewrite list_lookup_insert_ne by congruence.
           rewrite Hk. f_equal. lra.
      * destruct Hex as (msg & Hex). rewrite Hex in Hrun.
        eapply (IH _ _ cur total);
          [apply Hfail; reflexivity|exact Hs|exact Hlen|exact Hk|exact Hrun].
Qed.

End ConcurrentSlots.

(** X12.  Any number of concurrent callers of [update_opponent_quality]
    on a list of scores, each with its own index, under any schedule
    that lets all of them finish: every position of the list ends with
    its original score plus the deltas of exactly those callers whose
    index denotes that position.  Callers on other positions do not
    interfere, and a caller whose index lies outside the list changes
    nothing. *)
Theorem concurrent_updates_per_position :
  ∀ (s : store) (qs : list R) (callers : list indexed_caller)
    (sched : list nat) ts' s' (k : nat) (q0 : R),
    s !! "qualities" = Some (VList (map Num qs)) →
    Forall (λ c : indexed_caller, c.1.2 ≠ 0%R) callers →
    sys_run sched (map call_start callers, s) = Some (ts', s') →
    Forall finished ts' →
    qs !! k = Some q0 →
    ∃ qs', s' !! "qualities" = Some (VList (map Num qs'))
           ∧ length qs' = length qs
           ∧ qs' !! k = Some (q0 + sum_contributions (length qs) k callers)%R.
Proof.
  intros s qs callers sched ts' s' k q0 Hs Hps Hrun Hfin Hk.
  assert (Hn : (0 < length qs)%nat).
  { apply lookup_lt_Some in Hk. lia. }
  destruct (slot_schedule_invariant (length qs) k Hn callers q0 sched Hps
              (map call_start callers) s qs 0%R ts' s')
    as (qs' & total' & Hsts & Hs' & Hlen' & Hk'); auto.
  - apply all_progress_start.
  - rewrite Hk. f_equal. lra.
  - rewrite (all_progress_finished _ _ _ _ _ Hsts Hfin) in Hk'. eauto.
Qed.

(** Two callers on the two positions of [[1; 3]], interleaved. *)
Lemma two_positions_schedule :
  let s : store := <["qualities" := VList (map Num [1%R; 3%R])]> ∅ in
  let callers : list indexed_caller := [(0, (1 / 2)%R, 1%R); (1, (1 / 4)%R, 2%R)] in
  ∃ s', sys_run [0; 1; 1; 0]%nat (map call_start callers, s)
        = Some ([Ret (); Ret ()], s').
Proof.
  intros s callers. subst s callers. unfold call_start.
  cbn [map fst snd]. rewrite !update_opponent_quality_unfold. prog_simpl.
  assert (Hget0 : ∀ x y : R, lindex [Num x; Num y] 0 = Some (Num x)) by reflexivity.
  assert (Hget1 : ∀ x y : R, lindex [Num x; Num y] 1 = Some (Num y)) by reflexivity.
  assert (Hset0 : ∀ (x y : R) v, lset [Num x; Num y] 0 v = Some [v; Num y])
    by reflexivity.
  assert (Hset1 : ∀ (x y : R) v, lset [Num x; Num y] 1 v = Some [Num x; v])
    by reflexivity.
  rewrite sys_run_first. cbn [exec fst snd].
  rewrite !lookup_insert_eq. prog_simpl. rewrite py_div_Ok
    by (apply Rmult_integral_contrapositive_currified;
        [apply not_0_IZR; cbn; lia | lra]).
  prog_simpl.
  rewrite sys_run_second. cbn [exec fst snd].
  rewrite !lookup_insert_eq. prog_simpl. rewrite py_div_Ok
    by (apply Rmult_integral_contrapositive_currified;
        [apply not_0_IZR; cbn; lia | lra]).
  prog_simpl.
  rewrite sys_run_second. cbn [exec fst snd].
  rewrite !lookup_insert_eq, Hget1. cbn [tonumber]. rewrite Hset1. prog_simpl.
  rewrite sys_run_first. cbn [exec fst snd].
  rewrite !lookup_insert_eq, Hget0. cbn [tonumber]. rewrite Hset0. prog_simpl.
  eexists. reflexivity.
Qed.

Lemma concurrent_updates_per_position_witness :
  let s : store := <["qualities" := VList (map Num [1%R; 3%R])]> ∅ in
  let callers : list indexed_caller := [(0, (1 / 2)%R, 1%R); (1, (1 / 4)%R, 2%R)] in
  ∃ s' qs',
    sys_run [0; 1; 1; 0]%nat (map call_start callers, s)
      = Some ([Ret (); Ret ()], s')
    ∧ s' !! "qualities" = Some (VList (map Num qs'))
    ∧ qs' !! 1%nat = Some (3 + sum_contributions 2 1 callers)%R.
Proof.
  intros s callers.
  destruct two_positions_schedule as [s' Hrun].
  destruct (concurrent_updates_per_position s [1%R; 3%R] callers
              [0; 1; 1; 0]%nat [Ret (); Ret ()] s' 1%nat 3%R
              (lookup_insert_eq _ _ _)
              ltac:(repeat constructor; cbn; lra)
              Hrun ltac:(repeat constructor) eq_refl)
    as (qs' & Hs' & _ & Hk).
  exists s', qs'. auto.
Defined.

(** ** Promotion and publication with [Keys] bound *)

Lemma fold_left_Rmax_bounds (xs : list R) (x : R) :
  (x <= fold_left Rmax xs x)%R
  ∧ Forall (λ y, (y <= fold_left Rmax xs x)%R) xs
  ∧ fold_left Rmax xs x ∈ x :: xs.
Proof.
  revert x. induction xs as [|y xs IH]; intros x; cbn [fold_left].
  - split; [lra|]. split; [constructor|]. left.
  - destruct (IH (Rmax x y)) as (H1 & H2 & H3).
    pose proof (Rmax_l x y). pose proof (Rmax_r x y).
    split; [lra|]. split; [constructor; [lra|exact H2]|].
    apply elem_of_cons in H3 as [H3|H3].
    + rewrite H3. unfold Rmax. destruct (Rle_dec x y).
      * right. left.
      * left.
    + right. right. exact H3.
Qed.

Lemma initial_quality_is_max (qs : list R) :
  Forall (λ q, (q <= initial_quality qs)%R) qs
  ∧ (qs ≠ [] → initial_quality qs ∈ qs)
  ∧ (qs = [] → initial_quality qs = 0%R).
Proof.
  destruct qs as [|x xs]; cbn [initial_quality].
  - split; [constructor|]. split; [congruence|reflexivity].
  - destruct (fold_left_Rmax_bounds xs x) as (H1 & H2 & H3).
    split; [constructor; assumption|]. split; [intros _; exact H3|discriminate].
Qed.

Section PromotionWithKeys.
Variables (ks : gmap string string) (km : string).
Hypothesis Hkm : ks !! "OP_MODELS" = Some km.
Hypothesis Hne : km ≠ "qualities".

Lemma add_opponent_run (s : store) (blob : rstr) (models : list rstr) (qs : list R) :
  get_list s km = Some models →
  get_list s "qualities" = Some (map Num qs) →
  run (add_opponent (globals_with_Keys ks) blob) s
  = (Ok (),
     <["qualities" := VList (map Num (qs ++ [initial_quality qs]))]>
       (<[km := VList (models ++ [blob])]> s)).
Proof.
  intros Hm Hq. unfold add_opponent.
  rewrite (key_of_Keys_bound _ _ _ Hkm).
  rewrite key_global_with_Keys, key_global_QUALITIES by discriminate.
  set (s1 := <[km := VList (models ++ [blob])]> s).
  assert (H1 : ∃ r, exec (RPUSH km [blob]) s = (RInt r, s1)).
  { unfold get_list in Hm. cbn [exec].
    destruct (s !! km) as [[?|l]|] eqn:E; try discriminate;
      injection Hm as <-; eauto. }
  destruct H1 as [r1 H1].
  assert (Hq1 : s1 !! "qualities" = s !! "qualities").
  { unfold s1. apply lookup_insert_ne. exact Hne. }
  assert (H2 : exec (LRANGE "qualities" 0 (-1)) s1 = (RMulti (map Num qs), s1)).
  { unfold get_list in Hq. cbn [exec]. rewrite Hq1.
    destruct (s !! "qualities") as [[?|l]|] eqn:E; try discriminate;
      injection Hq as <-; [rewrite lrange_all|]; reflexivity. }
  set (q := initial_quality qs).
  assert (H3 : ∃ r, exec (RPUSH "qualities" [Num q]) s1
                    = (RInt r, <["qualities" := VList (map Num (qs ++ [q]))]> s1)).
  { unfold get_list in Hq. cbn [exec]. rewrite Hq1.
    destruct (s !! "qualities") as [[?|l]|] eqn:E; try discriminate;
      injection Hq as Hq; rewrite map_app; cbn [map].
    - rewrite Hq. eauto.
    - destruct qs; [eauto|discriminate]. }
  destruct H3 as [r3 H3].
  prog_simpl. rewrite H1. prog_simpl. rewrite H2. prog_simpl.
  rewrite rmapM_py_float_Num. prog_simpl.
  fold (initial_quality qs). fold q. rewrite H3. reflexivity.
Qed.

(** X13.  With [Keys.OP_MODELS] naming a key other than [qualities], a
    promotion into an aligned pool of numeric qualities returns, keeps
    the two lists aligned (each one entry longer, the old entries in
    place), touches no other key, and gives the new snapshot the
    highest quality of the pool: at least every stored quality and
    equal to one of them, or 0 when the pool was empty. *)
Theorem add_opponent_keeps_alignment (s : store) (blob : rstr)
    (models : list rstr) (qs : list R) :
  get_list s km = Some models →
  get_list s "qualities" = Some (map Num qs) →
  length models = length qs →
  ∃ s' q,
    run (add_opponent (globals_with_Keys ks) blob) s = (Ok (), s')
    ∧ get_list s' km = Some (models ++ [blob])
    ∧ get_list s' "qualities" = Some (map Num (qs ++ [q]))
    ∧ length (models ++ [blob]) = length (qs ++ [q])
    ∧ (∀ k, k ≠ km → k ≠ "qualities" → s' !! k = s !! k)
    ∧ Forall (λ x, (x <= q)%R) qs
    ∧ (qs ≠ [] → q ∈ qs)
    ∧ (qs = [] → q = 0%R).
Proof.
  intros Hm Hq Hlen.
  destruct (initial_quality_is_max qs) as (Hge & Hin & Hz).
  eexists _, (initial_quality qs).
  split; [apply add_opponent_run; eassumption|].
  split; [|split; [|split; [|split]]].
  - unfold get_list. rewrite lookup_insert_ne by congruence.
    rewrite lookup_insert_eq. reflexivity.
  - unfold get_list. rewrite lookup_insert_eq. reflexivity.
  - rewrite !length_app, Hlen. reflexivity.
  - intros k Hk1 Hk2. rewrite !lookup_insert_ne by congruence. reflexivity.
  - auto.
Qed.

End PromotionWithKeys.

Definition pool_keys : gmap string string :=
  list_to_map [("OP_MODELS", "opponent-models")].

Lemma add_opponent_keeps_alignment_witness :
  ∃ s' q,
    run (add_opponent (globals_with_Keys pool_keys) (Bytes "blob_A")) ∅ = (Ok (), s')
    ∧ get_list s' "opponent-models" = Some [Bytes "blob_A"]
    ∧ get_list s' "qualities" = Some (map Num [q])
    ∧ q = 0%R.
Proof.
  destruct (add_opponent_keeps_alignment pool_keys "opponent-models"
              ltac:(vm_compute; reflexivity) ltac:(discriminate)
              ∅ (Bytes "blob_A") [] []
              ltac:(unfold get_list; rewrite lookup_empty; reflexivity)
              ltac:(unfold get_list; rewrite lookup_empty; reflexivity)
              eq_refl)
    as (s' & q & Hrun & Hm & Hq & _ & _ & _ & _ & Hz).
  exists s', q. auto.
Defined.

Section PublicationWithKeys.
Variables (ks : gmap string string) (kb kv : string).
Hypothesis Hkb : ks !! "MODEL_LATEST" = Some kb.
Hypothesis Hkv : ks !! "VERSION_LATEST" = Some kv.

(** X14.  An empty [state_dict_dump] costs the published model: the two
    keys are deleted first, then [redis.set] is called without a value
    and raises [TypeError], so the call ends with neither the old pair
    nor a new one in the store. *)
Theorem update_model_empty_dump (s : store) (version : rstr) :
  run (update_model (globals_with_Keys ks) [] version) s
  = (Raised TypeError, delete kv (delete kb s))
  ∧ trace (update_model (globals_with_Keys ks) [] version) s = [DEL kb; DEL kv]
  ∧ delete kv (delete kb s) !! kb = None
  ∧ delete kv (delete kb s) !! kv = None.
Proof.
  unfold update_model.
  rewrite !(key_of_Keys_bound _ _ _ Hkb), !(key_of_Keys_bound _ _ _ Hkv).
  split; [reflexivity|]. split; [reflexivity|]. split.
  - destruct (decide (kb = kv)) as [->|Hne].
    + apply lookup_delete_eq.
    + rewrite lookup_delete_ne by congruence. apply lookup_delete_eq.
  - apply lookup_delete_eq.
Qed.

End PublicationWithKeys.

Lemma update_model_empty_dump_witness :
  run (update_model (globals_with_Keys latest_keys) [] (Bytes "2")) store_v1
  = (Raised TypeError, delete "model-version" (delete "model-latest" store_v1)).
Proof.
  exact (proj1 (update_model_empty_dump latest_keys "model-latest" "model-version"
                  ltac:(vm_compute; reflexivity) ltac:(vm_compute; reflexivity)
                  store_v1 (Bytes "2"))).
Defined.

(** * Further properties of default_manager.py *)

(** ** Decimal numerals *)

Fixpoint all_digits (s : string) : Prop :=
  match s with
  | EmptyString => True
  | String c r => is_Some (digit_value c) ∧ all_digits r
  end.

Lemma digit_value_pretty_N_char (d : N) :
  (d < 10)%N → digit_value (pretty_N_char d) = Some d.
Proof.
  intros Hd.
  assert (H : (d = 0 ∨ d = 1 ∨ d = 2 ∨ d = 3 ∨ d = 4 ∨ d = 5 ∨ d = 6 ∨ d = 7
               ∨ d = 8 ∨ d = 9)%N) by lia.
  repeat (destruct H as [->|H]; [reflexivity|]). subst d. reflexivity.
Qed.

Lemma pretty_N_go_digits (x : N) : ∀ s, all_digits s → all_digits (pretty_N_go x s).
Proof.
  induction (N.lt_wf_0 x) as [x _ IH]; intros s Hs.
  destruct (decide (x = 0%N)) as [->|Hx]; [rewrite pretty_N_go_0; exact Hs|].
  rewrite pretty_N_go_step by lia.
  apply IH; [apply N.div_lt; lia|].
  split; [|exact Hs].
  rewrite digit_value_pretty_N_char by (apply N.mod_lt; lia). eauto.
Qed.

Lemma parse_digits_pretty_N_go (x : N) :
  ∀ s st, parse_digits (pretty_N_go x s) 0 st
          = if decide (x = 0%N) then parse_digits s 0 st else parse_digits s x true.
Proof.
  induction (N.lt_wf_0 x) as [x _ IH]; intros s st.
  destruct (decide (x = 0%N)) as [->|Hx]; [rewrite pretty_N_go_0; reflexivity|].
  rewrite pretty_N_go_step by lia.
  rewrite IH by (apply N.div_lt; lia).
  assert (Hd : digit_value (pretty_N_char (x `mod` 10)) = Some (x `mod` 10)%N)
    by (apply digit_value_pretty_N_char, N.mod_lt; lia).
  pose proof (N.div_mod x 10 ltac:(lia)) as Hdm.
  destruct (decide (x `div` 10 = 0)%N) as [H0|H0];
    cbn [parse_digits]; rewrite Hd; f_equal; lia.
Qed.

Lemma pretty_nat_digits (n : nat) :
  all_digits (pretty n) ∧ pretty n ≠ "" ∧ parse_digits (pretty n) 0 false = Some (N.of_nat n).
Proof.
  unfold pretty, pretty_nat, pretty, pretty_N.
  destruct (decide (N.of_nat n = 0%N)) as [H0|H0].
  - rewrite H0. split; [split; [eexists; reflexivity|exact I]|].
    split; [discriminate|reflexivity].
  - split; [apply pretty_N_go_digits; exact I|]. split.
    + rewrite pretty_N_go_step by lia. intros H.
      pose proof (pretty_N_go_digits (N.of_nat n `div` 10)
                    (String (pretty_N_char (N.of_nat n `mod` 10)) "")) as Hd.
      assert (Hlen : ∀ x s, s ≠ "" → pretty_N_go x s ≠ "").
      { clear. intros x. induction (N.lt_wf_0 x) as [x _ IH]; intros s Hs.
        destruct (decide (x = 0%N)) as [->|Hx]; [rewrite pretty_N_go_0; exact Hs|].
        rewrite pretty_N_go_step by lia. apply IH; [apply N.div_lt; lia|discriminate]. }
      eapply Hlen; [|exact H]. discriminate.
    + rewrite parse_digits_pretty_N_go.
      destruct (decide (N.of_nat n = 0%N)); [contradiction|reflexivity].
Qed.

Lemma digit_not_space (c : ascii) : is_Some (digit_value c) → is_space c = false.
Proof.
  unfold digit_value, is_space. intros [d Hd].
  destruct ((48 <=? N_of_ascii c) && (N_of_ascii c <=? 57))%N eqn:E; [|discriminate Hd].
  apply andb_prop in E as [E1 E2].
  apply N.leb_le in E1. apply N.leb_le in E2.
  destruct (N.leb_spec 9 (N_of_ascii c)), (N.leb_spec (N_of_ascii c) 13),
    (N.leb_spec 28 (N_of_ascii c)), (N.leb_spec (N_of_ascii c) 32);
    cbn; try reflexivity; lia.
Qed.

Lemma lstrip_digits (s : string) : all_digits s → lstrip s = s.
Proof.
  destruct s as [|c r]; [reflexivity|]. intros [Hc _]. cbn [lstrip].
  rewrite (digit_not_space c Hc). reflexivity.
Qed.

Lemma rstrip_digits (s : string) : all_digits s → rstrip s = s.
Proof.
  induction s as [|c r IH]; [reflexivity|]. intros [Hc Hr]. cbn [rstrip].
  rewrite (IH Hr), (digit_not_space c Hc). destruct r; reflexivity.
Qed.

Lemma py_int_digits (s : string) :
  all_digits s →
  py_int s = match parse_digits s 0 false with
             | Some n => Ok (Z.of_N n)
             | None => Raised ValueError
             end.
Proof.
  intros Hs. unfold py_int. rewrite (lstrip_digits s Hs), (rstrip_digits s Hs).
  destruct s as [|c r]; [reflexivity|]. destruct Hs as [[d Hc] _].
  destruct c as [[] [] [] [] [] [] [] []]; try discriminate Hc;
    destruct (parse_digits _ 0 false); reflexivity.
Qed.

(** [int(str(n)) = n] for a natural number [n]. *)
Lemma py_int_pretty_nat (n : nat) : py_int (pretty n) = Ok (Z.of_nat n).
Proof.
  destruct (pretty_nat_digits n) as (Hd & _ & Hp).
  rewrite (py_int_digits _ Hd), Hp. f_equal. lia.
Qed.

Lemma py_int_error (s : string) (e : exn) : py_int s = Raised e → e = ValueError.
Proof.
  unfold py_int.
  destruct (match rstrip (lstrip s) with
            | String "-" r => _ | String "+" r => _ | _ => _ end);
    [discriminate|]. intros [= <-]. reflexivity.
Qed.

(** ** The keys of the snapshots *)

Lemma model_key_inj (x y : string) : "model-" +:+ x = "model-" +:+ y → x = y.
Proof.
  change ("model-" +:+ x) with (String "m" (String "o" (String "d" (String "e"
            (String "l" (String "-" x)))))).
  change ("model-" +:+ y) with (String "m" (String "o" (String "d" (String "e"
            (String "l" (String "-" y)))))).
  intros H. injection H as H. exact H.
Qed.

Lemma Ok_inj {A} (a b : A) : Ok a = Ok b → a = b.
Proof. intros H. injection H as H. exact H. Qed.

(** [MODEL_N.format(index)], as the worker evaluates it. *)
Definition version_key (index : nat) : result string :=
  load_global module_globals "MODEL_N" ≫= λ t, py_format t index.

(** X15.  The worker's snapshot keys are well separated: every index
    has a key [MODEL_N.format(index)], two indices never share a key,
    and no snapshot key is one of the keys [model-latest],
    [model-version], [qualities] or [rollout] that the module uses for
    other data. *)
Theorem snapshot_keys_separate :
  ∀ i : nat,
    ∃ version,
      version_key i = Ok version
      ∧ (version ∉ ["model-latest"; "model-version"; "qualities"; "rollout"])
      ∧ ∀ j : nat, version_key j = Ok version → j = i.
Proof.
  intros i. exists ("model-" +:+ pretty i). unfold version_key.
  rewrite load_global_MODEL_N. cbn [mbind result_bind rbind].
  split; [apply py_format_MODEL_N|]. split.
  - assert (Hnum : ∀ w, py_int w ≠ Ok (Z.of_nat i) → pretty i ≠ w).
    { intros w Hw <-. apply Hw, py_int_pretty_nat. }
    intros Hin. repeat (apply elem_of_cons in Hin as [Hin|Hin]).
    + apply model_key_inj in Hin. revert Hin. apply Hnum. discriminate.
    + apply model_key_inj in Hin. revert Hin. apply Hnum. discriminate.
    + discriminate Hin.
    + discriminate Hin.
    + inversion Hin.
  - intros j Hj. rewrite py_format_MODEL_N in Hj. apply Ok_inj in Hj.
    apply model_key_inj in Hj.
    apply (inj (pretty : nat → string)). exact Hj.
Qed.

(** ** _get_gamemode *)

(** The number a key contributes, and to which side. *)
Definition key_number (key : string) : result (bool * Z) :=
  if String.prefix "blue-" key
  then n ← py_int (py_replace "blue-" "" key); mret (true, n)
  else n ← py_int (py_replace "orange-" "" key); mret (false, n).

Lemma key_number_error (key : string) (e : exn) :
  key_number key = Raised e → e = ValueError.
Proof.
  unfold key_number. destruct (String.prefix "blue-" key);
    match goal with |- context [py_int ?x] => destruct (py_int x) eqn:E end;
    cbn; try discriminate; intros [= <-]; eapply py_int_error; exact E.
Qed.

Lemma gamemode_sums_cons (key : string) (cars : list string) (b o : Z) :
  gamemode_sums (key :: cars) b o
  = match key_number key with
    | Ok (true, n) => gamemode_sums cars (b + n) o
    | Ok (false, n) => gamemode_sums cars b (o + n)
    | Raised e => Raised e
    end.
Proof.
  cbn [gamemode_sums]. unfold key_number.
  destruct (String.prefix "blue-" key);
    match goal with |- context [py_int ?x] => destruct (py_int x) end; reflexivity.
Qed.

Lemma gamemode_sums_Permutation (cars cars' : list string) :
  cars ≡ₚ cars' → ∀ b o, gamemode_sums cars b o = gamemode_sums cars' b o.
Proof.
  induction 1 as [|x l l' _ IH|x y l|l1 l2 l3 _ IH1 _ IH2]; intros b o.
  - reflexivity.
  - rewrite !gamemode_sums_cons. destruct (key_number x) as [[[] n]|]; auto.
  - rewrite (gamemode_sums_cons y (x :: l)), (gamemode_sums_cons x (y :: l)).
    destruct (key_number x) as [[[] n]|ex] eqn:Ex,
             (key_number y) as [[[] m]|ey] eqn:Ey;
      rewrite ?gamemode_sums_cons, ?Ex, ?Ey;
      try reflexivity;
      try (f_equal; lia);
      try (apply key_number_error in Ex);
      try (apply key_number_error in Ey); subst; reflexivity.
  - rewrite IH1. apply IH2.
Qed.

(** X16.  The game mode does not depend on the order in which the cars
    are listed: any two orderings of the same keys give the same mode
    string, or both fail. *)
Theorem gamemode_order_independent (cars cars' : list string) :
  cars ≡ₚ cars' → _get_gamemode cars = _get_gamemode cars'.
Proof.
  intros H. unfold _get_gamemode.
  rewrite (gamemode_sums_Permutation cars cars' H). reflexivity.
Qed.

Lemma gamemode_order_independent_witness :
  _get_gamemode ["blue-0"; "orange-1"] = _get_gamemode ["orange-1"; "blue-0"].
Proof. apply gamemode_order_independent. apply perm_swap. Defined.

(** X17.  One key whose remainder is not an integer makes the whole
    call fail with [ValueError], wherever the key stands in the list. *)
Theorem gamemode_malformed_key (cars : list string) (key : string) :
  key ∈ cars →
  key_number key = Raised ValueError →
  _get_gamemode cars = Raised ValueError.
Proof.
  intros Hin Hkey.
  apply elem_of_Permutation in Hin as [rest Hperm].
  unfold _get_gamemode.
  rewrite (gamemode_sums_Permutation cars (key :: rest) Hperm).
  rewrite gamemode_sums_cons, Hkey. reflexivity.
Qed.

Lemma gamemode_malformed_key_witness :
  _get_gamemode ["blue-0"; "orange"] = Raised ValueError.
Proof.
  apply (gamemode_malformed_key ["blue-0"; "orange"] "orange").
  - right. left.
  - vm_compute. reflexivity.
Defined.

Definition blue_key (i : nat) : string := "blue-" +:+ pretty i.
Definition orange_key (j : nat) : string := "orange-" +:+ pretty j.

Lemma replace_go_digits (a : ascii) (old' new d : string) :
  digit_value a = None → all_digits d →
  replace_go (String a old') new d 0 = d.
Proof.
  intros Ha. induction d as [|c r IH]; [reflexivity|]. intros [Hc Hr].
  cbn [replace_go String.prefix].
  destruct (ascii_dec a c) as [->|_].
  - rewrite Ha in Hc. destruct Hc as [? Hc]. discriminate Hc.
  - rewrite (IH Hr). reflexivity.
Qed.

Lemma blue_key_split (d : string) :
  String.prefix "blue-" ("blue-" +:+ d) = true
  ∧ py_replace "blue-" "" ("blue-" +:+ d) = replace_go "blue-" "" d 0.
Proof. destruct d; split; reflexivity. Qed.

Lemma orange_key_split (d : string) :
  String.prefix "blue-" ("orange-" +:+ d) = false
  ∧ py_replace "orange-" "" ("orange-" +:+ d) = replace_go "orange-" "" d 0.
Proof. destruct d; split; reflexivity. Qed.

Lemma key_number_blue (i : nat) : key_number (blue_key i) = Ok (true, Z.of_nat i).
Proof.
  destruct (pretty_nat_digits i) as (Hd & _ & _).
  destruct (blue_key_split (pretty i)) as [Hp Hr].
  unfold key_number, blue_key. rewrite Hp, Hr.
  rewrite replace_go_digits by (reflexivity || exact Hd).
  rewrite py_int_pretty_nat. reflexivity.
Qed.

Lemma key_number_orange (j : nat) : key_number (orange_key j) = Ok (false, Z.of_nat j).
Proof.
  destruct (pretty_nat_digits j) as (Hd & _ & _).
  destruct (orange_key_split (pretty j)) as [Hp Hr].
  unfold key_number, orange_key. rewrite Hp, Hr.
  rewrite replace_go_digits by (reflexivity || exact Hd).
  rewrite py_int_pretty_nat. reflexivity.
Qed.

Lemma gamemode_sums_numbered (bs os : list nat) :
  ∀ b o, gamemode_sums (map blue_key bs ++ map orange_key os) b o
         = Ok (b + Z.of_nat (sum_list bs), o + Z.of_nat (sum_list os)).
Proof.
  induction bs as [|i bs IH]; intros b o.
  - cbn [map app]. change (sum_list []) with 0%nat. rewrite Z.add_0_r. revert o.
    induction os as [|j os IHo]; intros o.
    + change (sum_list []) with 0%nat. rewrite Z.add_0_r. reflexivity.
    + cbn [map]. rewrite gamemode_sums_cons, key_number_orange, IHo.
      change (sum_list (j :: os)) with (j + sum_list os)%nat.
      rewrite Nat2Z.inj_add, Z.add_assoc. reflexivity.
  - cbn [map app]. rewrite gamemode_sums_cons, key_number_blue, IH.
    change (sum_list (i :: bs)) with (i + sum_list bs)%nat.
    rewrite Nat2Z.inj_add, Z.add_assoc. reflexivity.
Qed.

(** X18.  For cars named [blue-<i>] and [orange-<j>], in any order, the
    mode is ["<m>v<M>"] where [m] and [M] are the smaller and the larger
    of the two sums of the numbers in the names: the mode adds up the
    numbers, it does not count the cars. *)
Theorem gamemode_of_numbered_cars (cars : list string) (bs os : list nat) :
  cars ≡ₚ map blue_key bs ++ map orange_key os →
  _get_gamemode cars
  = Ok (pretty (Z.min (Z.of_nat (sum_list bs)) (Z.of_nat (sum_list os)))
        +:+ "v"
        +:+ pretty (Z.max (Z.of_nat (sum_list bs)) (Z.of_nat (sum_list os)))).
Proof.
  intros H. unfold _get_gamemode.
  rewrite (gamemode_sums_Permutation _ _ H), gamemode_sums_numbered.
  reflexivity.
Qed.

Lemma gamemode_of_numbered_cars_witness :
  _get_gamemode ["blue-0"; "orange-0"; "blue-1"; "orange-1"]
  = Ok (pretty (Z.min (Z.of_nat (sum_list [0; 1]%nat)) (Z.of_nat (sum_list [0; 1]%nat)))
        +:+ "v"
        +:+ pretty (Z.max (Z.of_nat (sum_list [0; 1]%nat)) (Z.of_nat (sum_list [0; 1]%nat)))).
Proof.
  apply (gamemode_of_numbered_cars _ [0; 1]%nat [0; 1]%nat).
  change (map blue_key [0; 1]%nat ++ map orange_key [0; 1]%nat)
    with ["blue-0"; "blue-1"; "orange-0"; "orange-1"].
  apply perm_skip, perm_swap.
Defined.

(** ** Dictionaries *)

Lemma dict_get_set_eq {V} (d : dict V) (k : string) (v : V) :
  dict_get (dict_set d k v) k = Some v.
Proof.
  induction d as [|[k' v'] d IH]; cbn [dict_set dict_get].
  - rewrite String.eqb_refl. reflexivity.
  - destruct (String.eqb k k') eqn:E; cbn [dict_get]; rewrite E; [reflexivity|exact IH].
Qed.

Lemma dict_get_set_ne {V} (d : dict V) (k k' : string) (v : V) :
  k' ≠ k → dict_get (dict_set d k v) k' = dict_get d k'.
Proof.
  intros Hne. induction d as [|[k0 v0] d IH]; cbn [dict_set dict_get].
  - destruct (String.eqb_spec k' k); [contradiction|reflexivity].
  - destruct (String.eqb_spec k k0) as [->|Hk]; cbn [dict_get].
    + destruct (String.eqb_spec k' k0); [contradiction|reflexivity].
    + destruct (String.eqb k' k0); [reflexivity|exact IH].
Qed.

Lemma dict_set_keys {V} (d : dict V) (k : string) (v : V) :
  is_Some (dict_get d k) → map fst (dict_set d k v) = map fst d.
Proof.
  induction d as [|[k0 v0] d IH]; cbn [dict_set dict_get]; intros [x Hx].
  - discriminate Hx.
  - destruct (String.eqb k k0); [reflexivity|]. cbn [map fst]. f_equal. eauto.
Qed.

Lemma dict_get_Some_elem {V} (d : dict V) (k : string) (v : V) :
  dict_get d k = Some v → k ∈ map fst d.
Proof.
  induction d as [|[k0 v0] d IH]; cbn [dict_get]; [discriminate|].
  destruct (String.eqb_spec k k0) as [->|Hk]; intros H; [left|right; auto].
Qed.

Lemma dict_get_None_elem {V} (d : dict V) (k : string) :
  dict_get d k = None → k ∉ map fst d.
Proof.
  induction d as [|[k0 v0] d IH]; cbn [dict_get map fst]; intros H.
  - apply not_elem_of_nil.
  - destruct (String.eqb_spec k k0) as [->|Hk]; [discriminate H|].
    apply not_elem_of_cons. auto.
Qed.

(** ** The manager's experience counters *)

(** X19.  A fresh manager starts every game mode listed in
    [gamemode_weights] at experience 0 and knows no other mode. *)
Theorem init_experience :
  ∀ (weights : dict R) (disp : option string) (mode : string),
    dict_get (gamemode_exp (__init__ weights disp)) mode
    = if decide (mode ∈ map fst weights) then Some 0 else None.
Proof.
  intros weights disp mode. cbn [__init__ gamemode_exp].
  assert (H : ∀ acc,
            dict_get (fold_left (λ acc kw, dict_set acc kw.1 0) weights acc) mode
            = if decide (mode ∈ map fst weights) then Some 0 else dict_get acc mode).
  { induction weights as [|[k w] weights IH]; intros acc; cbn [fold_left map fst].
    - destruct (decide _) as [Hin|_]; [inversion Hin|reflexivity].
    - rewrite IH. destruct (decide (mode ∈ map fst weights)) as [Hin|Hnin].
      + rewrite decide_True by (right; exact Hin). reflexivity.
      + destruct (decide (mode = k)) as [->|Hne].
        * rewrite decide_True by left. apply dict_get_set_eq.
        * rewrite decide_False
            by (intros Hc; apply elem_of_cons in Hc as [?|?]; contradiction).
          apply dict_get_set_ne. exact Hne. }
  rewrite H. destruct (decide _); reflexivity.
Qed.

Lemma add_experience_Some (self : manager) (mode : string) (v steps : Z) :
  dict_get (gamemode_exp self) mode = Some v →
  ∃ self', add_experience self mode steps = Ok self'
           ∧ dict_get (gamemode_exp self') mode = Some (v + steps)
           ∧ (∀ m, m ≠ mode →
                dict_get (gamemode_exp self') m = dict_get (gamemode_exp self) m)
           ∧ map fst (gamemode_exp self') = map fst (gamemode_exp self)
           ∧ gamemode_weights self' = gamemode_weights self
           ∧ display self' = display self.
Proof.
  intros Hv. unfold add_experience, getitem. rewrite Hv.
  cbn [mbind mret result_bind result_ret rbind].
  eexists. split; [reflexivity|]. cbn [gamemode_exp gamemode_weights display].
  split; [apply dict_get_set_eq|]. split; [intros m Hm; apply dict_get_set_ne; exact Hm|].
  split; [apply dict_set_keys; eauto|]. split; reflexivity.
Qed.

Section ManagerProperties.
Context {Env Obs Action GState Info AgentSt : Type}.
Variable env_reset : Env → options → Env * (dict Obs * Info).
Variable env_step : Env → dict Action → Env * @step_result Obs Info.
Variable env_agents : Env → list string.
Variable env_state : Env → GState.
Variable agent_act : AgentSt → dict Obs → AgentSt * dict Action.
Variable agent_end : AgentSt → GState → dict bool → AgentSt.
Variable car_identifier : dict string.
Variable identifier_agent : dict nat.

(** A returned episode has recorded the reset state and at least one
    step, and its step counter is 0. *)
Lemma episode_result fuel e0 h0 bc gr st :
  _episode env_reset env_step env_agents env_state agent_act agent_end
    car_identifier identifier_agent fuel e0 h0 bc gr = Some (Ok st) →
  (2 ≤ length (all_states st))%nat ∧ total_agent_steps st = 0.
Proof.
  intros H. unfold _episode in H. split.
  - destruct (episode_loop_last_pass _ _ _ _ _ _ _ _ _ _ H) as (st_last & Hl & Hlen).
    destruct (episode_iter_inv _ _ _ _ _ _ _ _ _ _ Hl) as (Hs & _).
    rewrite Hs, length_app. cbn [length].
    assert (Hinit : length (all_states (initial_state env_reset env_state
                       car_identifier e0 h0 bc gr)) = 1%nat).
    { unfold initial_state. destruct (env_reset _ _) as [e [o i]]. reflexivity. }
    lia.
  - eapply episode_loop_total; [exact H|].
    unfold initial_state. destruct (env_reset _ _) as [e [o i]]. reflexivity.
Qed.

(** X20.  [rollout] credits the mode of the matchup with
    [len(states) * len(car_identifier)] steps, where [states] holds the
    reset state and one state per environment step: the counter of that
    mode grows by this product (at least twice the number of cars), no
    other counter and no key of the table changes, and the step count
    that [_episode] itself returns, which is 0, is not used. *)
Theorem rollout_adds_experience fuel (self : manager) e0 h0 st mode v :
  _episode env_reset env_step env_agents env_state agent_act agent_end
    car_identifier identifier_agent fuel e0 h0 1 1 = Some (Ok st) →
  _get_gamemode (map fst car_identifier) = Ok mode →
  dict_get (gamemode_exp self) mode = Some v →
  ∃ self',
    rollout env_reset env_step env_agents env_state agent_act agent_end
      car_identifier identifier_agent fuel self e0 h0 = Some (Ok (self', st))
    ∧ dict_get (gamemode_exp self') mode
      = Some (v + Z.of_nat (length (all_states st)) * Z.of_nat (length car_identifier))
    ∧ (∀ m, m ≠ mode →
         dict_get (gamemode_exp self') m = dict_get (gamemode_exp self) m)
    ∧ map fst (gamemode_exp self') = map fst (gamemode_exp self)
    ∧ (2 ≤ length (all_states st))%nat
    ∧ total_agent_steps st = 0.
Proof.
  intros He Hm Hv.
  destruct (episode_result _ _ _ _ _ _ He) as [Hlen Hzero].
  destruct (add_experience_Some self mode v
              (Z.of_nat (length (all_states st)) * Z.of_nat (length car_identifier)) Hv)
    as (self' & Hadd & Hget & Hother & Hkeys & _).
  exists self'. unfold rollout. rewrite He, Hm.
  cbn [mbind mret result_bind result_ret rbind]. rewrite Hadd.
  cbn [rbind]. auto 10.
Qed.

(** X21.  A matchup whose mode is not listed in the experience table
    makes [rollout] fail with [KeyError] for that mode, after the
    episode has been played. *)
Theorem rollout_unknown_mode fuel (self : manager) e0 h0 st mode :
  _episode env_reset env_step env_agents env_state agent_act agent_end
    car_identifier identifier_agent fuel e0 h0 1 1 = Some (Ok st) →
  _get_gamemode (map fst car_identifier) = Ok mode →
  dict_get (gamemode_exp self) mode = None →
  rollout env_reset env_step env_agents env_state agent_act agent_end
    car_identifier identifier_agent fuel self e0 h0
  = Some (Raised (KeyError mode)).
Proof.
  intros He Hm Hv. unfold rollout. rewrite He, Hm.
  cbn [mbind mret result_bind result_ret rbind].
  unfold add_experience, getitem. rewrite Hv. reflexivity.
Qed.

(** X22.  [show] credits the mode with [len(states)] steps only, not
    multiplied by the number of cars. *)
Theorem show_adds_experience fuel (self : manager) e0 h0 st mode v :
  _episode env_reset env_step env_agents env_state agent_act agent_end
    car_identifier identifier_agent fuel e0 h0 1 1 = Some (Ok st) →
  _get_gamemode (map fst car_identifier) = Ok mode →
  dict_get (gamemode_exp self) mode = Some v →
  ∃ self',
    show env_reset env_step env_agents env_state agent_act agent_end
      car_identifier identifier_agent fuel self e0 h0 = Some (Ok (self', st))
    ∧ dict_get (gamemode_exp self') mode
      = Some (v + Z.of_nat (length (all_states st)))
    ∧ (∀ m, m ≠ mode →
         dict_get (gamemode_exp self') m = dict_get (gamemode_exp self) m)
    ∧ map fst (gamemode_exp self') = map fst (gamemode_exp self).
Proof.
  intros He Hm Hv.
  destruct (add_experience_Some self mode v
              (Z.of_nat (length (all_states st))) Hv)
    as (self' & Hadd & Hget & Hother & Hkeys & _).
  exists self'. unfold show. rewrite He, Hm.
  cbn [mbind mret result_bind result_ret rbind]. rewrite Hadd.
  cbn [rbind]. auto 10.
Qed.

End ManagerProperties.

(** The scenario's cars are one blue and one orange car, both numbered
    0: the mode is ["0v0"]. *)
Lemma scenario_gamemode :
  _get_gamemode (map fst Scenario.car_identifier) = Ok "0v0".
Proof. vm_compute. reflexivity. Qed.

Definition scenario_manager (exp : dict Z) : manager :=
  {| display := None; gamemode_exp := exp; gamemode_weights := [] |}.

Lemma rollout_adds_experience_witness :
  ∃ self' st,
    rollout (Scenario.env_reset false) (Scenario.env_step false)
      (Scenario.env_agents false) Scenario.env_state Scenario.agent_act
      Scenario.agent_end Scenario.car_identifier Scenario.identifier_agent
      100 (scenario_manager [("1v1", 7); ("0v0", 5)]) 0%nat (λ _, 0%nat)
    = Some (Ok (self', st))
    ∧ all_states st = seq 0 16
    ∧ dict_get (gamemode_exp self') "0v0" = Some (5 + 16 * 2)
    ∧ dict_get (gamemode_exp self') "1v1" = Some 7.
Proof.
  destruct (outcome_Ok_inv _ _ _ _ scenario_dropped_at_once) as (st & H & Hx).
  destruct (rollout_adds_experience _ _ _ _ _ _ _ _ 100
              (scenario_manager [("1v1", 7); ("0v0", 5)]) _ _ st "0v0" 5
              H scenario_gamemode eq_refl)
    as (self' & Hr & Hget & Hother & _).
  injection Hx as Hs _ _.
  exists self', st. split; [exact Hr|]. split; [symmetry; exact Hs|].
  split.
  - rewrite Hget, <- Hs. reflexivity.
  - rewrite Hother by discriminate. reflexivity.
Defined.

Lemma rollout_unknown_mode_witness :
  rollout (Scenario.env_reset false) (Scenario.env_step false)
    (Scenario.env_agents false) Scenario.env_state Scenario.agent_act
    Scenario.agent_end Scenario.car_identifier Scenario.identifier_agent
    100 (__init__ [("1v1", 1%R)] None) 0%nat (λ _, 0%nat)
  = Some (Raised (KeyError "0v0")).
Proof.
  destruct (outcome_Ok_inv _ _ _ _ scenario_dropped_at_once) as (st & H & _).
  exact (rollout_unknown_mode _ _ _ _ _ _ _ _ 100
           (__init__ [("1v1", 1%R)] None) _ _ st "0v0"
           H scenario_gamemode eq_refl).
Defined.

Lemma show_adds_experience_witness :
  ∃ self' st,
    show (Scenario.env_reset false) (Scenario.env_step false)
      (Scenario.env_agents false) Scenario.env_state Scenario.agent_act
      Scenario.agent_end Scenario.car_identifier Scenario.identifier_agent
      100 (scenario_manager [("1v1", 7); ("0v0", 5)]) 0%nat (λ _, 0%nat)
    = Some (Ok (self', st))
    ∧ dict_get (gamemode_exp self') "0v0" = Some (5 + 16).
Proof.
  destruct (outcome_Ok_inv _ _ _ _ scenario_dropped_at_once) as (st & H & Hx).
  destruct (show_adds_experience _ _ _ _ _ _ _ _ 100
              (scenario_manager [("1v1", 7); ("0v0", 5)]) _ _ st "0v0" 5
              H scenario_gamemode eq_refl)
    as (self' & Hr & Hget & _).
  injection Hx as Hs _ _.
  exists self', st. split; [exact Hr|].
  rewrite Hget, <- Hs. reflexivity.
Defined.

(** * Further properties of the episode loop *)

Lemma elem_of_set_add (s : list string) (c x : string) :
  x ∈ set_add s c ↔ x ∈ s ∨ x = c.
Proof.
  unfold set_add. destruct (existsb (String.eqb c) s) eqn:E.
  - split; [auto|]. intros [H| ->]; [exact H|].
    apply existsb_exists in E as (y & Hy & Heq).
    apply String.eqb_eq in Heq as ->. apply list_elem_of_In. exact Hy.
  - rewrite elem_of_app, list_elem_of_singleton. reflexivity.
Qed.

(** ** The options given to [reset] *)





(** ** Grouping the cars by identifier *)

Lemma group_step (acc : dict (list string)) (c i id car : string) :
  (∃ cars, dict_get (dict_set acc i (set_add (default [] (dict_get acc i)) c)) id
           = Some cars ∧ car ∈ cars)
  ↔ (∃ cars, dict_get acc id = Some cars ∧ car ∈ cars) ∨ (car = c ∧ id = i).
Proof.
  destruct (decide (id = i)) as [->|Hne].
  - rewrite dict_get_set_eq. split.
    + intros (cars & Hc & Hin). injection Hc as <-.
      apply elem_of_set_add in Hin as [Hin| ->]; [left|right; auto].
      destruct (dict_get acc i) as [l|]; cbn [default] in Hin;
        [exists l; auto|inversion Hin].
    + intros [(cars & Hg & Hin)|[-> _]]; eexists; (split; [reflexivity|]);
        apply elem_of_set_add; [left; rewrite Hg; exact Hin|right; reflexivity].
  - rewrite dict_get_set_ne by exact Hne. split; [auto|].
    intros [H|[_ H]]; [exact H|contradiction].
Qed.

Lemma group_fold (l : dict string) : ∀ (acc : dict (list string)) (id car : string),
  (∃ cars, dict_get
             (fold_left
                (λ acc ci, dict_set acc ci.2
                             (set_add (default [] (dict_get acc ci.2)) ci.1))
                l acc) id = Some cars ∧ car ∈ cars)
  ↔ (∃ cars, dict_get acc id = Some cars ∧ car ∈ cars) ∨ (car, id) ∈ l.
Proof.
  induction l as [|[c i] l IH]; intros acc id car; cbn [fold_left fst snd].
  - split; [auto|]. intros [H|H]; [exact H|inversion H].
  - rewrite IH, group_step, elem_of_cons. split.
    + intros [[H|[-> ->]]|H]; auto.
    + intros [H|[H|H]]; auto. injection H as -> ->. auto.
Qed.

Lemma group_fold_nonempty (l : dict string) : ∀ (acc : dict (list string)),
  (∀ id cars, dict_get acc id = Some cars → cars ≠ []) →
  ∀ id cars,
    dict_get
      (fold_left
         (λ acc ci, dict_set acc ci.2
                      (set_add (default [] (dict_get acc ci.2)) ci.1))
         l acc) id = Some cars →
    cars ≠ [].
Proof.
  induction l as [|[c i] l IH]; intros acc Hacc; cbn [fold_left fst snd];
    [exact Hacc|].
  apply IH. intros id cars.
  destruct (decide (id = i)) as [->|Hne].
  - rewrite dict_get_set_eq. intros [= <-] Hnil.
    assert (Hin : c ∈ set_add (default [] (dict_get acc i)) c)
      by (apply elem_of_set_add; right; reflexivity).
    rewrite Hnil in Hin. inversion Hin.
  - rewrite dict_get_set_ne by exact Hne. apply Hacc.
Qed.

Lemma identifier_cars_members (car_identifier : dict string) (id car : string) :
  (∃ cars, dict_get (identifier_cars car_identifier) id = Some cars ∧ car ∈ cars)
  ↔ (car, id) ∈ car_identifier.
Proof.
  unfold identifier_cars. rewrite group_fold. split; [|auto].
  intros [(cars & H & _)|H]; [discriminate H|exact H].
Qed.

(** X24.  [identifier_cars] groups the cars by identifier: a car is in
    the group of an identifier exactly when [car_identifier] maps the
    car to that identifier, and no group is empty. *)
Theorem identifier_cars_groups (car_identifier : dict string) :
  (∀ id car,
     (∃ cars, dict_get (identifier_cars car_identifier) id = Some cars ∧ car ∈ cars)
     ↔ (car, id) ∈ car_identifier)
  ∧ (∀ id cars,
       dict_get (identifier_cars car_identifier) id = Some cars → cars ≠ []).
Proof.
  split.
  - apply identifier_cars_members.
  - unfold identifier_cars. apply group_fold_nonempty.
    intros id cars H. discriminate H.
Qed.

Section EpisodeFurther.
Context {Env Obs Action GState Info AgentSt : Type}.
Variable env_reset : Env → options → Env * (dict Obs * Info).
Variable env_step : Env → dict Action → Env * @step_result Obs Info.
Variable env_agents : Env → list string.
Variable env_state : Env → GState.
Variable agent_act : AgentSt → dict Obs → AgentSt * dict Action.
Variable agent_end : AgentSt → GState → dict bool → AgentSt.
Variable car_identifier : dict string.
Variable identifier_agent : dict nat.

#[local] Abbreviation iter' :=
  (episode_iter env_step env_agents env_state agent_act agent_end
     car_identifier identifier_agent).
#[local] Abbreviation loop' :=
  (episode_loop env_step env_agents env_state agent_act agent_end
     car_identifier identifier_agent).

(** ** Missing agents and observations *)

Lemma getitem_Some {V} (d : dict V) (k : string) (v : V) :
  dict_get d k = Some v → getitem d k = Ok v.
Proof. unfold getitem. intros ->. reflexivity. Qed.

Lemma getitem_None {V} (d : dict V) (k : string) :
  dict_get d k = None → getitem d k = Raised (KeyError k).
Proof. unfold getitem. intros ->. reflexivity. Qed.

Lemma collect_observations (observations : dict Obs) (cars : list string) :
  match rmapM (λ car, x ← getitem observations car; mret (car, x)) cars with
  | Ok _ => ∀ car, car ∈ cars → is_Some (dict_get observations car)
  | Raised e => ∃ k, e = KeyError k
  end.
Proof.
  induction cars as [|c cars IH]; cbn [rmapM].
  - intros car H. inversion H.
  - unfold getitem at 1. destruct (dict_get observations c) as [x|] eqn:Ex;
      cbn [mbind mret result_bind result_ret rbind]; [|eauto].
    destruct (rmapM _ cars) as [ys|e]; cbn [rbind]; [|exact IH].
    intros car Hin. apply elem_of_cons in Hin as [->|Hin]; [eauto|auto].
Qed.

Lemma select_actions_cases (observations : dict Obs)
    (groups : dict (list string)) : ∀ h all_actions,
  match select_actions agent_act identifier_agent groups h observations all_actions with
  | Ok _ => ∀ id cars, (id, cars) ∈ groups →
                       is_Some (dict_get identifier_agent id)
                       ∧ ∀ car, car ∈ cars → is_Some (dict_get observations car)
  | Raised e => ∃ k, e = KeyError k
  end.
Proof.
  induction groups as [|[i cs] groups IH]; intros h all_actions;
    cbn [select_actions].
  - intros id cars H. inversion H.
  - destruct (dict_get identifier_agent i) as [a|] eqn:Ea;
      [rewrite (getitem_Some _ _ _ Ea)|rewrite (getitem_None _ _ Ea)];
      cbn [mbind mret result_bind result_ret rbind]; [|eauto].
    pose proof (collect_observations observations cs) as Hc.
    destruct (rmapM _ cs) as [o|e];
      cbn [mbind mret result_bind result_ret rbind]; [|exact Hc].
    destruct (agent_act (h a) o) as [a' actions].
    specialize (IH (heap_set h a a') (dict_update all_actions actions)).
    destruct (select_actions _ _ _ _ _ _) as [r|e]; [|exact IH].
    intros id cars Hin. apply elem_of_cons in Hin as [Heq|Hin]; [|auto].
    injection Heq as -> ->. split; [rewrite Ea; eauto|exact Hc].
Qed.

Lemma dict_get_Some_pair {V} (d : dict V) (k : string) (v : V) :
  dict_get d k = Some v → (k, v) ∈ d.
Proof.
  induction d as [|[k0 v0] d IH]; cbn [dict_get]; [discriminate|].
  destruct (String.eqb_spec k k0) as [->|Hk]; intros H.
  - injection H as ->. left.
  - right. auto.
Qed.

Lemma episode_iter_KeyError (st : loop_state) (car id : string) :
  (car, id) ∈ car_identifier →
  dict_get identifier_agent id = None ∨ dict_get (obs_now st) car = None →
  ∃ k, iter' st = Raised (KeyError k).
Proof.
  intros Hin Hmiss.
  apply identifier_cars_members in Hin as (cars & Hcars & Hcar).
  apply dict_get_Some_pair in Hcars.
  unfold episode_iter.
  pose proof (select_actions_cases (obs_now st)
                (identifier_cars car_identifier) (heap st) []) as Hs.
  destruct (select_actions _ _ _ _ _ _) as [r|e].
  - destruct (Hs _ _ Hcars) as [[a Ha] Hobs].
    destruct (Hobs _ Hcar) as [x Hx].
    destruct Hmiss as [Hm|Hm]; congruence.
  - destruct Hs as [k ->]. exists k. reflexivity.
Qed.

(** X25.  When some identifier of the matchup has no entry in
    [identifier_agent], [_episode] fails with [KeyError] in its first
    pass, whatever the environment does. *)
Theorem episode_missing_agent fuel e0 h0 boost_consumption gravity car id :
  (car, id) ∈ car_identifier →
  dict_get identifier_agent id = None →
  ∃ k, _episode env_reset env_step env_agents env_state agent_act agent_end
         car_identifier identifier_agent (S fuel) e0 h0 boost_consumption gravity
       = Some (Raised (KeyError k)).
Proof.
  intros Hin Hnone. unfold _episode. cbn [episode_loop].
  destruct (episode_iter_KeyError
              (initial_state env_reset env_state car_identifier e0 h0
                 boost_consumption gravity) car id Hin (or_introl Hnone))
    as [k Hk].
  exists k. rewrite Hk. reflexivity.
Qed.

(** X26.  Every pass asks for the observation of every car of the
    matchup, ended or not: a pass that starts with observations lacking
    one of them fails with [KeyError]. *)
Theorem episode_pass_missing_observation fuel (st : loop_state) car id :
  (car, id) ∈ car_identifier →
  dict_get (obs_now st) car = None →
  ∃ k, episode_loop env_step env_agents env_state agent_act agent_end
         car_identifier identifier_agent (S fuel) st
       = Some (Raised (KeyError k)).
Proof.
  intros Hin Hnone. cbn [episode_loop].
  destruct (episode_iter_KeyError st car id Hin (or_intror Hnone)) as [k Hk].
  exists k. rewrite Hk. reflexivity.
Qed.

(** ** The [end] calls *)

Lemma episode_loop_invariant (P : loop_state → Prop) :
  (∀ st st' b, P st → iter' st = Ok (st', b) → P st') →
  ∀ fuel st st', loop' fuel st = Some (Ok st') → P st → P st'.
Proof.
  intros Hstep. induction fuel as [|fuel IH]; intros st st' H HP; [discriminate H|].
  cbn [episode_loop] in H.
  destruct (iter' st) as [[st1 b]|] eqn:Hit; [|discriminate H].
  pose proof (Hstep _ _ _ HP Hit) as HP1.
  destruct b; [injection H as <-; exact HP1|eauto].
Qed.

(** What one car adds to the log of [end] calls. *)
Lemma notify_car_calls (state : GState) (out : @step_result Obs Info)
    (car : string) h removed calls h' removed' calls' :
  notify_car agent_end car_identifier identifier_agent state out car
    (h, removed, calls) = Ok (h', removed', calls') →
  calls' = calls
  ∨ ∃ id tr, calls' = calls ++ [(id, state, [(car, tr)])]
             ∧ dict_get car_identifier car = Some id
             ∧ dict_get (truncated out) car = Some tr
             ∧ (dict_get (terminated out) car = Some true ∨ tr = true).
Proof.
  unfold notify_car, getitem. intros H.
  destruct (dict_get (terminated out) car) as [t|] eqn:Et; [|discriminate H].
  destruct (dict_get (truncated out) car) as [tr|] eqn:Etr;
    destruct (dict_get car_identifier car) as [id|] eqn:Eid;
    destruct t; try destruct tr;
    cbn [mbind mret result_bind result_ret rbind] in H;
    try discriminate H;
    try (destruct (dict_get identifier_agent id);
         cbn [mbind mret result_bind result_ret rbind] in H);
    try discriminate H;
    injection H as _ _ <-;
    first [left; reflexivity
          |right; eexists _, _; split; [reflexivity|]; auto].
Qed.

Definition reports_one_car (states : list GState) (c : @end_call GState) : Prop :=
  ∃ car tr, c.2 = [(car, tr)]
            ∧ dict_get car_identifier car = Some c.1.1
            ∧ c.1.2 ∈ states.

Lemma notify_reports (states : list GState) (state : GState)
    (out : @step_result Obs Info) (cars : list string) :
  state ∈ states →
  ∀ h removed calls h' removed' calls',
    notify agent_end car_identifier identifier_agent state out cars
      (h, removed, calls) = Ok (h', removed', calls') →
    Forall (reports_one_car states) calls →
    Forall (reports_one_car states) calls'.
Proof.
  intros Hstate. induction cars as [|car cars IH];
    intros h removed calls h' removed' calls' H Hall; cbn [notify] in H.
  - injection H as _ _ <-. exact Hall.
  - destruct (notify_car _ _ _ _ _ _ _) as [[[h1 r1] c1]|] eqn:Hcar;
      cbn [mbind result_bind rbind] in H; [|discriminate H].
    eapply IH; [exact H|].
    apply notify_car_calls in Hcar as [->|(id & tr & -> & Hid & _)]; [exact Hall|].
    apply Forall_app. split; [exact Hall|].
    apply Forall_singleton. exists car, tr. auto.
Qed.

Lemma reports_one_car_mono (states more : list GState) (c : @end_call GState) :
  reports_one_car states c → reports_one_car (states ++ more) c.
Proof.
  intros (car & tr & H1 & H2 & H3). exists car, tr.
  split; [exact H1|]. split; [exact H2|]. apply elem_of_app. left. exact H3.
Qed.

Lemma episode_iter_reports st st' b :
  Forall (reports_one_car (all_states st)) (end_calls st) →
  iter' st = Ok (st', b) →
  Forall (reports_one_car (all_states st')) (end_calls st').
Proof.
  intros Hall H. unfold episode_iter in H.
  destruct (select_actions _ _ _ _ _ _) as [ha|]; [|discriminate H].
  cbn [mbind result_bind rbind] in H.
  destruct (env_step (env st) ha.2) as [e out].
  destruct (notify _ _ _ _ _ _ _) as [[[h1 r1] c1]|] eqn:Hnot; [|discriminate H].
  cbn [mbind mret result_bind result_ret rbind] in H.
  injection H as <- _. cbn [all_states end_calls fst snd].
  eapply notify_reports; [|exact Hnot|].
  - apply elem_of_app. right. left.
  - eapply Forall_impl; [exact Hall|]. intros c. apply reports_one_car_mono.
Qed.

(** X27.  Every [agent.end] call made during an episode reports exactly
    one car, goes to the identifier that [car_identifier] gives for that
    car, and passes a state that is recorded in [all_states]: an agent
    whose two cars end in the same step is called twice. *)
Theorem end_calls_report_one_car fuel e0 h0 boost_consumption gravity st :
  _episode env_reset env_step env_agents env_state agent_act agent_end
    car_identifier identifier_agent fuel e0 h0 boost_consumption gravity
  = Some (Ok st) →
  ∀ id state truncs,
    (id, state, truncs) ∈ end_calls st →
    ∃ car tr, truncs = [(car, tr)]
              ∧ dict_get car_identifier car = Some id
              ∧ state ∈ all_states st.
Proof.
  unfold _episode. intros H id state truncs Hin.
  assert (Hall : Forall (reports_one_car (all_states st)) (end_calls st)).
  { eapply (episode_loop_invariant
              (λ s, Forall (reports_one_car (all_states s)) (end_calls s)));
      [|exact H|].
    - intros s s' b. apply episode_iter_reports.
    - unfold initial_state. destruct (env_reset _ _) as [e [o i]].
      apply Forall_nil_2. }
  rewrite Forall_forall in Hall. exact (Hall _ Hin).
Qed.

End EpisodeFurther.

Lemma episode_missing_agent_witness :
  ∃ k, _episode (Scenario.env_reset false) (Scenario.env_step false)
         (Scenario.env_agents false) Scenario.env_state Scenario.agent_act
         Scenario.agent_end Scenario.car_identifier [("agent-a", 0%nat)]
         1 0%nat (λ _, 0%nat) 1 1
       = Some (Raised (KeyError k)).
Proof.
  apply (episode_missing_agent (Scenario.env_reset false) (Scenario.env_step false)
           (Scenario.env_agents false) Scenario.env_state Scenario.agent_act
           Scenario.agent_end Scenario.car_identifier [("agent-a", 0%nat)]
           0 0%nat (λ _, 0%nat) 1 1 "orange-0" "agent-b").
  - right. left.
  - reflexivity.
Defined.

(** A pass of the scenario that starts without an observation for
    [orange-0]. *)
Definition scenario_blind_state : @loop_state nat unit nat nat :=
  {| env := 0%nat; heap := λ _, 0%nat; obs_now := [("blue-0", ())];
     all_states := [0%nat]; total_agent_steps := 0;
     removed_cars := []; end_calls := [] |}.

Lemma episode_pass_missing_observation_witness :
  ∃ k, episode_loop (Scenario.env_step false) (Scenario.env_agents false)
         Scenario.env_state Scenario.agent_act Scenario.agent_end
         Scenario.car_identifier Scenario.identifier_agent
         1 scenario_blind_state
       = Some (Raised (KeyError k)).
Proof.
  apply (episode_pass_missing_observation (Scenario.env_step false)
           (Scenario.env_agents false) Scenario.env_state Scenario.agent_act
           Scenario.agent_end Scenario.car_identifier Scenario.identifier_agent
           0 scenario_blind_state "orange-0" "agent-b").
  - right. left.
  - reflexivity.
Defined.

Lemma end_calls_report_one_car_witness :
  ∃ st car tr,
    Scenario.run_episode true false 100 = Some (Ok st)
    ∧ ("agent-a", 10%nat, [("blue-0", false)]) ∈ end_calls st
    ∧ [("blue-0", false)] = [(car, tr)]
    ∧ dict_get Scenario.car_identifier car = Some "agent-a"
    ∧ 10%nat ∈ all_states st.
Proof.
  destruct (outcome_Ok_inv _ _ _ _ scenario_listed_once_more) as (st & H & Hx).
  injection Hx as _ _ Hc.
  assert (Hin : ("agent-a", 10%nat, [("blue-0", false)]) ∈ end_calls st)
    by (rewrite <- Hc; left).
  destruct (end_calls_report_one_car _ _ _ _ _ _ _ _ _ _ _ _ _ _ H _ _ _ Hin)
    as (car & tr & H1 & H2 & H3).
  exists st, car, tr. auto.
Defined.

Lemma episode_last_step_notifies_nobody_witness :
  ∃ st' st_last,
    Scenario.run_episode true false 100 = Some (Ok st')
    ∧ episode_iter (Scenario.env_step false) (Scenario.env_agents true)
        Scenario.env_state Scenario.agent_act Scenario.agent_end
        Scenario.car_identifier Scenario.identifier_agent st_last
      = Ok (st', true)
    ∧ Scenario.env_agents true (env st') = []
    ∧ end_calls st' = end_calls st_last
    ∧ all_states st' = all_states st_last ++ [Scenario.env_state (env st')].
Proof.
  destruct (outcome_Ok_inv _ _ _ _ scenario_listed_once_more) as (st' & H & _).
  destruct (episode_last_step_notifies_nobody _ _ _ _ _ _ _ _ _ _ _ _ _ _ H)
    as (st_last & H1 & H2 & H3 & H4).
  exists st', st_last. auto.
Defined.
